(** * The hybrid chatbot of [chatbot.py]: small talk, Wikipedia lookup, cache

    A shallow embedding of [chatbot.py] and the properties of its
    [answer_query] function.

    - A Python [str] is a list of Unicode code points ([list N]).
    - A value decoded from JSON (and [None]) is a [json].
    - The module-level dictionary [CACHE] and the two HTTP endpoints are
      threaded through a state-and-exception monad [M]; every cache probe
      and every HTTP request is recorded in a trace.
    - A Python exception is a value [Raise e]; [try ... except Exception]
      is [try_except]. *)

From Stdlib Require Import NArith ZArith Ascii String List Bool Lia.
From Stdlib Require Import Floats.PrimFloat.
From stdpp Require Import gmap list.

#[local] Set Warnings "-register-all".
Local Open Scope N_scope.

(** ** Strings and characters *)

Abbreviation pystr := (list N).

(** An ASCII literal of the source as a [pystr]. *)
Definition py (s : string) : pystr := map N_of_ascii (list_ascii_of_string s).

Definition in_range (lo hi c : N) : bool := (lo <=? c) && (c <=? hi).

(** [str.isspace] of one character, which is also [\s] of [re] on [str]
    patterns: the code points CPython classifies as whitespace. *)
Definition isspace (c : N) : bool :=
  in_range 0x09 0x0D c || in_range 0x1C 0x20 c || (c =? 0x85) || (c =? 0xA0)
  || (c =? 0x1680) || in_range 0x2000 0x200A c || (c =? 0x2028)
  || (c =? 0x2029) || (c =? 0x202F) || (c =? 0x205F) || (c =? 0x3000).

Definition is_ascii_alnum (c : N) : bool :=
  in_range 0x30 0x39 c || in_range 0x41 0x5A c || in_range 0x61 0x7A c.

(** The simple lower-case mapping, on the code points whose image is an ASCII
    letter (A-Z, U+0130 and the Kelvin sign U+212A).  The patterns of this
    program consist of ASCII characters only, so the image of every other
    code point is never equal to a pattern character and is left as it is. *)
Definition tolower (c : N) : N :=
  if in_range 0x41 0x5A c then c + 32
  else if c =? 0x130 then 0x69
  else if c =? 0x212A then 0x6B
  else c.

(** One literal character [p] of a pattern compiled with [re.I] against the
    character [c] of the text; [p] is written in lower case in the source.
    Besides the characters that lower-case to [p], [i] also matches the
    dotless i (U+0131) and [s] the long s (U+017F). *)
Definition ci_literal (p c : N) : bool :=
  (tolower c =? p) || ((p =? 0x69) && (c =? 0x131)) || ((p =? 0x73) && (c =? 0x17F)).

(** [str.strip()] with no argument: leading and trailing whitespace off. *)
Fixpoint lstrip (s : pystr) : pystr :=
  match s with
  | [] => []
  | c :: s' => if isspace c then lstrip s' else s
  end.

Definition rstrip (s : pystr) : pystr := rev (lstrip (rev s)).

Definition strip (s : pystr) : pystr := rstrip (lstrip s).

(** [str.replace(a, b)] for single characters [a] and [b]. *)
Definition replace (a b : N) (s : pystr) : pystr :=
  map (fun c => if c =? a then b else c) s.

(** [sep.join(parts)]. *)
Fixpoint join (sep : pystr) (parts : list pystr) : pystr :=
  match parts with
  | [] => []
  | [p] => p
  | p :: ps => p ++ sep ++ join sep ps
  end.

(** ** Python exceptions *)

Inductive exn :=
| RequestException      (* requests.get: connection error, timeout *)
| HTTPError             (* raise_for_status *)
| JSONDecodeError       (* r.json() *)
| TypeError
| IndexError
| KeyError
| AttributeError
| UnicodeEncodeError
| UnicodeDecodeError.   (* input: bytes that are not text *)

Inductive result (A : Type) :=
| Ok (a : A)
| Raise (e : exn).
Arguments Ok {A} a.
Arguments Raise {A} e.

(** ** [urllib.parse.quote] *)

(** UTF-8 encoding of one code point with [errors='strict']: a surrogate
    cannot be encoded. *)
Definition utf8_char (c : N) : option (list N) :=
  if c <? 0x80 then Some [c]
  else if c <? 0x800 then Some [0xC0 + c / 64; 0x80 + c mod 64]
  else if in_range 0xD800 0xDFFF c then None
  else if c <? 0x10000 then
    Some [0xE0 + c / 4096; 0x80 + (c / 64) mod 64; 0x80 + c mod 64]
  else if c <? 0x110000 then
    Some [0xF0 + c / 262144; 0x80 + (c / 4096) mod 64;
          0x80 + (c / 64) mod 64; 0x80 + c mod 64]
  else None.

Fixpoint utf8_encode (s : pystr) : option (list N) :=
  match s with
  | [] => Some []
  | c :: s' =>
      match utf8_char c, utf8_encode s' with
      | Some bs, Some r => Some (bs ++ r)
      | _, _ => None
      end
  end.

Definition hex_digit (d : N) : N := if d <? 10 then 0x30 + d else 0x41 + (d - 10).

(** The characters [quote] never escapes: letters, digits and [_.-~]. *)
Definition always_safe (b : N) : bool :=
  is_ascii_alnum b || (b =? 0x5F) || (b =? 0x2E) || (b =? 0x2D) || (b =? 0x7E).

Definition quote_byte (safe : pystr) (b : N) : pystr :=
  if always_safe b || existsb (N.eqb b) safe then [b]
  else [0x25; hex_digit (b / 16); hex_digit (b mod 16)].

(** [urllib.parse.quote(string, safe)] on a [str]. *)
Definition quote (s safe : pystr) : result pystr :=
  match utf8_encode s with
  | Some bs => Ok (flat_map (quote_byte safe) bs)
  | None => Raise UnicodeEncodeError
  end.

(** ** What the link of a title is, said without [quote] *)

(** The characters a URL may show as they are (RFC 3986, unreserved). *)
Definition UNRESERVED : pystr :=
  py "ABCDEFGHIJKLMNOPQRSTUVWXYZabcdefghijklmnopqrstuvwxyz0123456789_.-~".

(** The value of a hexadecimal digit written with digits and upper-case
    letters. *)
Definition hex_value (c : N) : option N :=
  if in_range 0x30 0x39 c then Some (c - 0x30)
  else if in_range 0x41 0x46 c then Some (c - 0x41 + 10)
  else None.

(** [out] is the byte [b] percent-encoded, the characters of [keep] being
    kept: the byte itself if it is unreserved or in [keep], else [%] and the
    two hexadecimal digits of its value. *)
Definition pct_encoded (keep : pystr) (b : N) (out : pystr) : Prop :=
  (In b (UNRESERVED ++ keep) /\ out = [b])
  \/ (~ In b (UNRESERVED ++ keep)
      /\ exists h l vh vl,
           out = [0x25; h; l]
           /\ hex_value h = Some vh /\ hex_value l = Some vl
           /\ b = 16 * vh + vl).

(** [d] is [c] with a space turned into an underscore. *)
Definition underscored (c d : N) : Prop :=
  (c = 0x20 /\ d = 0x5F) \/ (c <> 0x20 /\ d = c).

(** [link] is the address of the article [title]: the base address, then
    each byte of the UTF-8 encoding of the title, every space of which was
    turned into an underscore, percent-encoded with [/] kept. *)
Definition link_for (title link : pystr) : Prop :=
  exists title' bytes parts,
    Forall2 underscored title title'
    /\ utf8_encode title' = Some bytes
    /\ Forall2 (pct_encoded [0x2F]) bytes parts
    /\ link = py "https://en.wikipedia.org/wiki/" ++ concat parts.

(** ** The sentence splitter *)

Definition ends_sentence (prev : option N) : bool :=
  match prev with
  | Some c => (c =? 0x2E) || (c =? 0x3F) || (c =? 0x21)
  | None => false
  end.

Definition push (c : N) (parts : list pystr) : list pystr :=
  match parts with
  | [] => [[c]]
  | p :: ps => (c :: p) :: ps
  end.

(** [re.split(r'(?<=[\.\?\!])\s+', s)]: a separator is a maximal run of
    whitespace whose first character follows [.], [?] or [!].  [skip] is set
    while the scan is inside a separator, [prev] is the character before the
    current one. *)
Fixpoint re_split (skip : bool) (prev : option N) (s : pystr) : list pystr :=
  match s with
  | [] => [[]]
  | c :: s' =>
      if isspace c && skip then re_split true (Some c) s'
      else if isspace c && ends_sentence prev then [] :: re_split true (Some c) s'
      else push c (re_split false (Some c) s')
  end.

(** [short_sentences(text, max_sentences)] on a [str].  [re.split] never
    returns an empty list, so the [if not parts] branch returns [text] only
    in the model. *)
Definition short_sentences (text : pystr) (max_sentences : nat) : pystr :=
  let parts := re_split false None (strip text) in
  match parts with
  | [] => text
  | _ => strip (join [0x20] (firstn max_sentences parts))
  end.

(** ** Values decoded from JSON *)

(** What [r.json()] can return; [JNull] is [None].  A JSON object is the
    Python [dict] it decodes to, as an association list in which the first
    binding of a key is the [dict]'s. *)
Inductive json :=
| JNull
| JBool (b : bool)
| JInt (z : Z)
| JFloat (f : float)
| JStr (s : pystr)
| JArr (l : list json)
| JObj (kv : list (pystr * json)).

(** Python truth value, as tested by [if x:] and [not x]. *)
Definition truthy (v : json) : bool :=
  match v with
  | JNull => false
  | JBool b => b
  | JInt z => negb (z =? 0)%Z
  | JFloat f => negb (PrimFloat.eqb f 0%float)
  | JStr s => match s with [] => false | _ => true end
  | JArr l => match l with [] => false | _ => true end
  | JObj kv => match kv with [] => false | _ => true end
  end.

(** [v[i]] for a non-negative [int] literal [i]. *)
Definition getitem (v : json) (i : nat) : result json :=
  match v with
  | JArr l => match nth_error l i with Some x => Ok x | None => Raise IndexError end
  | JStr s => match nth_error s i with Some c => Ok (JStr [c]) | None => Raise IndexError end
  | JObj _ => Raise KeyError      (* the keys of a decoded object are [str] *)
  | _ => Raise TypeError          (* not subscriptable *)
  end.

Fixpoint assoc (k : pystr) (kv : list (pystr * json)) : option json :=
  match kv with
  | [] => None
  | (k', v) :: kv' => if decide (k = k') then Some v else assoc k kv'
  end.

(** [v.get(k)]: only a [dict] has the method. *)
Definition dict_get (v : json) (k : pystr) : result json :=
  match v with
  | JObj kv => Ok (default JNull (assoc k kv))
  | _ => Raise AttributeError
  end.

(** ** The cache, the remote services and the monad *)

Inductive field := FTitle | FSummary.

#[global] Instance field_eq_dec : EqDecision field.
Proof. solve_decision. Defined.

(** One inner dictionary of [CACHE]: the keys ["title"] and ["summary"],
    each present or not. *)
Record entry := { e_title : option json; e_summary : option json }.

Definition get_field (f : field) (e : entry) : option json :=
  match f with FTitle => e_title e | FSummary => e_summary e end.

Definition set_field (f : field) (v : json) (e : entry) : entry :=
  match f with
  | FTitle => {| e_title := Some v; e_summary := e_summary e |}
  | FSummary => {| e_title := e_title e; e_summary := Some v |}
  end.

(** The two GET requests.  [SearchGet q] is the request to [WIKI_SEARCH_URL]
    with [action=opensearch], [search=q], [limit=1], [namespace=0] and
    [format=json]; [SummaryGet url] is the request to [url].  Both carry
    [HEADERS] and [timeout=8]. *)
Inductive request :=
| SearchGet (q : pystr)
| SummaryGet (url : pystr).

(** What a request comes back with: [requests.get] raises (no connection,
    timeout), or there is a response with a status code and a body that
    decodes as JSON or does not. *)
Inductive reply :=
| ConnectionFailed
| Response (status : N) (body : option json).

Inductive event :=
| CacheProbe (key : json) (f : field)
| HttpGet (r : request).

Record state := { cache : gmap pystr entry; trace : list event }.

Definition is_request (e : event) : bool :=
  match e with HttpGet _ => true | CacheProbe _ _ => false end.

Definition is_search (e : event) : bool :=
  match e with HttpGet (SearchGet _) => true | _ => false end.

Definition is_summary (e : event) : bool :=
  match e with HttpGet (SummaryGet _) => true | _ => false end.

Definition count (p : event -> bool) (t : list event) : nat :=
  length (filter (fun e => p e = true) t).

(** The field [f] of [CACHE[k]], when both are there. *)
Definition cached (f : field) (k : pystr) (st : state) : option json :=
  cache st !! k ≫= get_field f.

Definition initial : state := {| cache := ∅; trace := [] |}.

Definition log (ev : event) (st : state) : state :=
  {| cache := cache st; trace := trace st ++ [ev] |}.

Definition M (A : Type) : Type := state -> result A * state.

Definition ret {A} (a : A) : M A := fun st => (Ok a, st).

Definition raise {A} (e : exn) : M A := fun st => (Raise e, st).

Definition bind {A B} (m : M A) (k : A -> M B) : M B :=
  fun st =>
    match m st with
    | (Ok a, st') => k a st'
    | (Raise e, st') => (Raise e, st')
    end.

Definition lift {A} (r : result A) : M A := fun st => (r, st).

(** [try: body / except Exception: handler]; what the body did to the
    cache before it raised stays done. *)
Definition try_except {A} (body : M A) (handler : exn -> M A) : M A :=
  fun st =>
    match body st with
    | (Ok a, st') => (Ok a, st')
    | (Raise e, st') => handler e st'
    end.

Notation "'let*' x ':=' m 'in' k" := (bind m (fun x => k))
  (at level 10, x name, m at level 100, k at level 200).

(** [k in CACHE and f in CACHE[k]], and then [CACHE[k][f]].  Every key of
    [CACHE] is a [str] (lines 87 and 110 are the only writes, the first under
    a stripped query and the second under a title that [quote] accepted), so
    a number, a boolean or [None] is never found; a [list] or a [dict] is
    not hashable. *)
Definition cache_get (k : json) (f : field) : M (option json) :=
  fun st =>
    match k with
    | JArr _ | JObj _ => (Raise TypeError, st)
    | JStr s => (Ok (cached f s st), log (CacheProbe k f) st)
    | _ => (Ok None, log (CacheProbe k f) st)
    end.

(** [CACHE.setdefault(k, {})[f] = v]. *)
Definition store (k : pystr) (f : field) (v : json) (st : state) : state :=
  let e := default {| e_title := None; e_summary := None |} (cache st !! k) in
  {| cache := <[k := set_field f v e]> (cache st); trace := trace st |}.

Definition cache_set (k : pystr) (f : field) (v : json) : M unit :=
  fun st => (Ok tt, store k f v st).

Definition raise_for_status (status : N) : M unit :=
  if in_range 400 599 status then raise HTTPError else ret tt.

Definition response_json (body : option json) : M json :=
  match body with
  | Some data => ret data
  | None => raise JSONDecodeError
  end.

Definition is_nil {A} (l : list A) : bool :=
  match l with [] => true | _ => false end.

(** ** Constants of the module *)

Definition NL : pystr := [0x0A].
(** The three characters the source file has where a dash was meant. *)
Definition DASH : pystr := [0xE2; 0x20AC; 0x201D].
Definition WAVE : pystr := [0xF0; 0x178; 0x2018; 0x2039].
Definition SMILE : pystr := [0xF0; 0x178; 0x2DC; 0x160].

Definition WIKI_SUMMARY_URL (safe : pystr) : pystr :=
  py "https://en.wikipedia.org/api/rest_v1/page/summary/" ++ safe.

Definition MSG_EMPTY : pystr := py "Kuch type karo, main madad karunga.".

Definition MSG_NO_MATCH : pystr :=
  py "Maaf kijiye " ++ DASH ++ py " mujhe Wikipedia par match nahi mila. "
  ++ py "Aap query thoda badal ke try kar sakte hain (e.g., 'photosynthesis' ya 'who is sachin tendulkar').".

Definition msg_answer (title short link : pystr) : pystr :=
  py "**" ++ title ++ py "**" ++ NL ++ short ++ NL ++ NL
  ++ py "Agar aur padhna ho: " ++ link.

Definition msg_no_summary (title link : pystr) : pystr :=
  py "Maine ek page dhoondh liya: " ++ title ++ py " " ++ DASH
  ++ py " lekin short summary fetch nahi hui." ++ NL
  ++ py "Aap full article yahan dekh sakte hain: " ++ link.

(** ** Regular expressions of the small-talk table *)

(** The patterns of [SMALL_TALK] use literals, groups of alternative
    literals, [\b] and a top-level [|].  A pattern is a list of branches (the
    top-level alternatives), a branch a sequence of items. *)
Inductive item :=
| WordB                        (* \b *)
| Lits (alts : list pystr).    (* (t1|...|tn), or a bare literal t1 *)

Abbreviation branch := (list item).
Abbreviation regex := (list branch).

Record rule := { name : pystr; pattern : regex; replies : list pystr }.

(** [\b(t1|...|tn)\b] *)
Definition words (alts : list string) : regex := [[WordB; Lits (map py alts); WordB]].

Definition greeting : rule :=
  {| name := py "greeting";
     pattern := words ["hi"; "hello"; "hey"; "hiya"; "hlo"]%string;
     replies := [py "Hi!"; py "Hello " ++ WAVE; py "Hey! Kaise ho?"] |}.

Definition howare : rule :=
  {| name := py "howare";
     pattern := words ["how are you"; "how r u"; "how're you"; "how are u";
                       "kaise ho"; "kya haal"]%string;
     replies := [py "Main theek hoon, thank you! Aap kaise ho?";
                 py "Doing well " ++ DASH ++ py " aap batao, kaise ho?"] |}.

Definition imfine : rule :=
  {| name := py "imfine";
     pattern := words ["i am fine"; "i'm fine"; "main theek hoon";
                       "mai theek hu"; "mai thik hu"]%string;
     replies := [py "Achha! Khushi hui sunke " ++ SMILE;
                 py "Great! Batao aur kuch puchna hai?"] |}.

Definition thanks : rule :=
  {| name := py "thanks";
     pattern := words ["thanks"; "thank you"; "thx"; "shukriya"]%string;
     replies := [py "Aapka swagat hai!"; py "No problem!"] |}.

Definition farewell : rule :=
  {| name := py "farewell";
     pattern := words ["bye"; "goodbye"; "see ya"; "exit"; "quit"; "alvida"]%string;
     replies := [py "Goodbye! " ++ SMILE; py "See you later!"] |}.

(** [\bhelp|commands\b]: the alternation binds weaker than [\b]. *)
Definition help : rule :=
  {| name := py "help";
     pattern := [[WordB; Lits [py "help"]]; [Lits [py "commands"]; WordB]];
     replies := [py "Aap simple questions pooch sakte hain like 'photosynthesis', 'who is albert einstein', ya normal chitchat (hello/how are you)."] |}.

(** The dictionary [SMALL_TALK], in the order of its keys. *)
Definition SMALL_TALK : list rule :=
  [greeting; howare; imfine; thanks; farewell; help].

(** ** The console of [main] *)

(** What [input] gets at the prompt: a line of text, a line of bytes that
    the encoding of [sys.stdin] cannot decode ([UnicodeDecodeError]), or
    Ctrl-C ([KeyboardInterrupt]).  The end of the list is the end of the
    input ([EOFError]).  Ctrl-C is an event of the keyboard where [input]
    waits for one; an interrupt delivered while [answer_query] is running is
    not an event of this console. *)
Inductive keyboard :=
| Line (text : pystr)
| Undecodable
| CtrlC.

Definition decodes (k : keyboard) : bool :=
  match k with Undecodable => false | _ => true end.

(** What [main] writes, in order. *)
Inductive printed :=
| Banner                          (* line 156 *)
| Prompt                          (* the prompt of [input], line 159 *)
| Goodbye (interrupted : bool)    (* line 161 ([true]) and line 166 ([false]) *)
| Reply (reply : pystr) (n : nat). (* line 173, for the n-th answer of the session *)

Definition EXIT_WORDS : list pystr := [py "exit"; py "bye"; py "quit"; py "alvida"].

(** [str.lower] on ASCII text. *)
Definition ascii_lower (c : N) : N := if in_range 0x41 0x5A c then c + 32 else c.

Definition lower_ascii (s : pystr) : pystr := map ascii_lower s.

(** A clock that shows no time passing. *)
Definition no_time : nat -> pystr := fun _ => py "0.00".

(** [print(text)], and [input(prompt)] for its prompt, encode the text for
    the console before anything of it is written; a character that the
    encoding of [sys.stdout] cannot write raises [UnicodeEncodeError].
    [stdout_ok] tells which characters the console can write. *)
Definition can_print (stdout_ok : N -> bool) (text : pystr) : bool :=
  forallb stdout_ok text.

(** A UTF-8 console: every code point but the surrogates. *)
Definition utf8_console (c : N) : bool :=
  (c <? 0x110000) && negb (in_range 0xD800 0xDFFF c).

(** An ASCII console. *)
Definition ascii_console (c : N) : bool := c <? 0x80.

(** The characters of the texts the program has of its own: ASCII, and
    those the source file has where a dash and two emoji were meant. *)
Definition own_char (c : N) : bool :=
  (c <? 0x80) || existsb (N.eqb c) (DASH ++ WAVE ++ SMILE).

(** ** Concrete services, used to run the program *)

(** A classification with no alphanumeric character outside ASCII. *)
Definition ascii_only : N -> bool := fun _ => false.

(** No network. *)
Definition remote_down : nat -> request -> reply :=
  fun _ _ => ConnectionFailed.

(** A service that knows one page. *)
Definition remote_wiki : nat -> request -> reply :=
  fun _ req =>
    match req with
    | SearchGet q =>
        Response 200 (Some (JArr [JStr q; JArr [JStr (py "Albert Einstein")]]))
    | SummaryGet _ =>
        Response 200 (Some (JObj [(py "extract", JStr (py "A. B. C."))]))
    end.

(** The same service when its first request is lost. *)
Definition remote_flaky : nat -> request -> reply :=
  fun n req =>
    match n with
    | O => ConnectionFailed
    | S _ => remote_wiki n req
    end.

(** A service that finds the page and has no summary of it. *)
Definition remote_no_extract : nat -> request -> reply :=
  fun _ req =>
    match req with
    | SearchGet q =>
        Response 200 (Some (JArr [JStr q; JArr [JStr (py "Albert Einstein")]]))
    | SummaryGet _ => Response 404 (Some (JObj [(py "type", JStr (py "not_found"))]))
    end.

(** A service that finds the page and answers the summary request with an
    error status, although the body carries an extract. *)
Definition remote_gone : nat -> request -> reply :=
  fun _ req =>
    match req with
    | SearchGet q =>
        Response 200 (Some (JArr [JStr q; JArr [JStr (py "Albert Einstein")]]))
    | SummaryGet _ =>
        Response 404 (Some (JObj [(py "extract", JStr (py "A. B. C."))]))
    end.

(** A search service whose answer is valid JSON of the expected shape with a
    number where the title should be: the body [["x", [5]]]. *)
Definition remote_number_title : nat -> request -> reply :=
  fun _ _ => Response 200 (Some (JArr [JStr (py "x"); JArr [JInt 5]])).

Section Chatbot.

(** The alphanumeric classification of the Unicode database ([str.isalnum])
    above the ASCII range.  No whitespace character is alphanumeric. *)
Variable unicode_alnum : N -> bool.
Hypothesis unicode_space_not_alnum :
  forall c, isspace c = true -> unicode_alnum c = false.

(** The remote services: the reply to a request, given how many requests
    were made before it.  Nothing is assumed about it. *)
Variable remote : nat -> request -> reply.

(** [\w] of [re] on a [str] pattern: alphanumeric or underscore. *)
Definition is_word (c : N) : bool :=
  if c <? 0x80 then is_ascii_alnum c || (c =? 0x5F) else unicode_alnum c.

Definition opt_word (o : option N) : bool :=
  match o with Some c => is_word c | None => false end.

(** [\b] between the character before the position ([prev]) and the one at
    it ([next]); outside the string counts as a non-word character. *)
Definition word_boundary (prev next : option N) : bool :=
  xorb (opt_word prev) (opt_word next).

(** Consume the literal [tok] at the head of [s], ignoring case: the last
    character consumed and the rest of the text. *)
Fixpoint eat (tok : pystr) (prev : option N) (s : pystr) : option (option N * pystr) :=
  match tok with
  | [] => Some (prev, s)
  | p :: tok' =>
      match s with
      | c :: s' => if ci_literal p c then eat tok' (Some c) s' else None
      | [] => None
      end
  end.

(** Whether the items match at the head of [s]; backtracking over the
    alternatives of a group is the [existsb]. *)
Fixpoint match_items (its : branch) (prev : option N) (s : pystr) : bool :=
  match its with
  | [] => true
  | WordB :: its' => word_boundary prev (head s) && match_items its' prev s
  | Lits alts :: its' =>
      existsb (fun tok =>
                 match eat tok prev s with
                 | Some (prev', s') => match_items its' prev' s'
                 | None => false
                 end) alts
  end.

Definition match_here (re : regex) (prev : option N) (s : pystr) : bool :=
  existsb (fun b => match_items b prev s) re.

Fixpoint search_from (re : regex) (prev : option N) (s : pystr) : bool :=
  match_here re prev s
  || match s with
     | [] => false
     | c :: s' => search_from re (Some c) s'
     end.

(** [pattern.search(text)] as a truth value. *)
Definition re_search (re : regex) (text : pystr) : bool := search_from re None text.

(** The loop of [check_small_talk] over the rules. *)
Fixpoint check_rules (rules : list rule) (text : pystr) : result (option pystr) :=
  match rules with
  | [] => Ok None
  | info :: rules' =>
      if re_search (pattern info) text then
        match replies info with
        | r :: _ => Ok (Some r)
        | [] => Raise IndexError
        end
      else check_rules rules' text
  end.

Definition check_small_talk (text : pystr) : result (option pystr) :=
  check_rules SMALL_TALK text.

(** [requests.get(...)]: the reply of the service, recorded in the trace. *)
Definition requests_get (req : request) : M (N * option json) :=
  fun st =>
    let st' := log (HttpGet req) st in
    match remote (count is_request (trace st)) req with
    | ConnectionFailed => (Raise RequestException, st')
    | Response status body => (Ok (status, body), st')
    end.

Definition wiki_search_first_title (query : pystr) : M json :=
  let q := strip query in
  if is_nil q then ret JNull else
  let* hit := cache_get (JStr q) FTitle in
  match hit with
  | Some title => ret title
  | None =>
      let* returned :=
        try_except
          (let* r := requests_get (SearchGet q) in
           let* _ := raise_for_status (fst r) in
           let* data := response_json (snd r) in
           let* titles := lift (getitem data 1) in
           if truthy titles then
             let* title := lift (getitem titles 0) in
             let* _ := cache_set q FTitle title in
             ret (Some title)
           else ret None)
          (fun _ => ret (Some JNull)) in
      match returned with
      | Some v => ret v
      | None => ret JNull
      end
  end.

Definition wiki_get_summary (title : json) : M json :=
  if negb (truthy title) then ret JNull else
  let* hit := cache_get title FSummary in
  match hit with
  | Some summary => ret summary
  | None =>
      match title with
      | JStr t =>
          let* safe := lift (quote t []) in
          let url := WIKI_SUMMARY_URL safe in
          let* returned :=
            try_except
              (let* r := requests_get (SummaryGet url) in
               let* _ := raise_for_status (fst r) in
               let* data := response_json (snd r) in
               let* summary := lift (dict_get data (py "extract")) in
               if truthy summary then
                 let* _ := cache_set t FSummary summary in
                 ret (Some summary)
               else ret None)
              (fun _ => ret (Some JNull)) in
          match returned with
          | Some v => ret v
          | None => ret JNull
          end
      | _ =>
          (* quote(title, safe=""): quote_from_bytes() expected bytes *)
          raise TypeError
      end
  end.

(** [short_sentences(summary, max_sentences=2)] on any value: only a [str]
    has [strip]. *)
Definition short_sentences_value (text : json) (max_sentences : nat) : result pystr :=
  match text with
  | JStr s => Ok (short_sentences s max_sentences)
  | _ => Raise AttributeError
  end.

(** [f"https://en.wikipedia.org/wiki/{urllib.parse.quote(title.replace(' ', '_'))}"] *)
Definition wiki_link (title : pystr) : result pystr :=
  match quote (replace 0x20 0x5F title) [0x2F] with
  | Ok q => Ok (py "https://en.wikipedia.org/wiki/" ++ q)
  | Raise e => Raise e
  end.

Definition answer_query (user_input : pystr) : M pystr :=
  let user_input := strip user_input in
  if is_nil user_input then ret MSG_EMPTY else
  let* st := lift (check_small_talk user_input) in
  match st with
  | Some (c :: r) => ret (c :: r)
  | _ =>
      let* title := wiki_search_first_title user_input in
      if negb (truthy title) then ret MSG_NO_MATCH else
      let* summary := wiki_get_summary title in
      if truthy summary then
        let* short := lift (short_sentences_value summary 2) in
        match title with
        | JStr t =>
            let* link := lift (wiki_link t) in
            ret (msg_answer t short link)
        | _ => raise AttributeError     (* title.replace *)
        end
      else
        match title with
        | JStr t =>
            let* link := lift (wiki_link t) in
            ret (msg_no_summary t link)
        | _ => raise AttributeError     (* title.replace *)
        end
  end.

(** ** [main] *)

(** The text of line 173; [elapsed_text n] is the text of [{elapsed:.2f}] in
    the n-th answer, which depends on the clock. *)
Definition render (elapsed_text : nat -> pystr) (p : printed) : pystr :=
  match p with
  | Banner => py "Hybrid ChatBot (small-talk + Wikipedia). Type 'bye' or 'exit' to quit."
  | Prompt => NL ++ py "You: "
  | Goodbye true => NL ++ py "Bot: Alvida! " ++ SMILE
  | Goodbye false => py "Bot: Alvida! " ++ SMILE
  | Reply reply n =>
      py "Bot: " ++ reply ++ NL ++ py "(lookup: " ++ elapsed_text n ++ py "s)"
  end.

(** [user.lower() in ("exit", "bye", "quit", "alvida")].  [str_lower] is
    [str.lower]: the case table of the Unicode database is not reproduced,
    and nothing is assumed about it. *)
Definition is_exit (str_lower : pystr -> pystr) (user : pystr) : bool :=
  existsb (fun w => bool_decide (str_lower user = w)) EXIT_WORDS.

(** Whether the console can write [p]. *)
Definition shown (stdout_ok : N -> bool) (elapsed_text : nat -> pystr) (p : printed)
  : bool :=
  can_print stdout_ok (render elapsed_text p).

(** The [while True] loop of [main] on the keyboard input [stdin]; [n] counts
    the answers given so far.  The result is what was written, how the loop
    ended (normally, with the exception [answer_query] raised, with the
    [UnicodeEncodeError] of a text the console cannot write, or with the
    [UnicodeDecodeError] of a line that is not text, which the [except]
    clause of line 160 does not catch) and the state it left. *)
Fixpoint main_loop (stdout_ok : N -> bool) (elapsed_text : nat -> pystr)
    (str_lower : pystr -> pystr) (stdin : list keyboard) (n : nat) (st : state)
  : list printed * result unit * state :=
  if negb (shown stdout_ok elapsed_text Prompt) then ([], Raise UnicodeEncodeError, st)
  else
  match stdin with
  | [] | CtrlC :: _ =>
      if shown stdout_ok elapsed_text (Goodbye true)
      then ([Prompt; Goodbye true], Ok tt, st)
      else ([Prompt], Raise UnicodeEncodeError, st)
  | Undecodable :: _ => ([Prompt], Raise UnicodeDecodeError, st)
  | Line text :: rest =>
      let user := strip text in
      if is_nil user then
        let '(out, r, st') := main_loop stdout_ok elapsed_text str_lower rest n st in
        (Prompt :: out, r, st')
      else if is_exit str_lower user then
        if shown stdout_ok elapsed_text (Goodbye false)
        then ([Prompt; Goodbye false], Ok tt, st)
        else ([Prompt], Raise UnicodeEncodeError, st)
      else
        match answer_query user st with
        | (Ok reply, st') =>
            if shown stdout_ok elapsed_text (Reply reply n) then
              let '(out, r, st'') :=
                main_loop stdout_ok elapsed_text str_lower rest (S n) st' in
              (Prompt :: Reply reply n :: out, r, st'')
            else ([Prompt], Raise UnicodeEncodeError, st')
        | (Raise e, st') => ([Prompt], Raise e, st')
        end
  end.

Definition main (stdout_ok : N -> bool) (elapsed_text : nat -> pystr)
    (str_lower : pystr -> pystr) (stdin : list keyboard) (st : state)
  : list printed * result unit * state :=
  if shown stdout_ok elapsed_text Banner then
    let '(out, r, st') := main_loop stdout_ok elapsed_text str_lower stdin 0 st in
    (Banner :: out, r, st')
  else ([], Raise UnicodeEncodeError, st).

(** The keyboard events after which [main] reads nothing more. *)
Definition stops (str_lower : pystr -> pystr) (k : keyboard) : Prop :=
  k = CtrlC
  \/ exists text, k = Line text /\ strip text <> [] /\ is_exit str_lower (strip text) = true.

(** ** The operations of the module, run in sequence *)

Inductive op :=
| Answer (user_input : pystr)
| Search (query : pystr)
| Summary (title : json).

Definition run_op (o : op) (st : state) : state :=
  match o with
  | Answer u => snd (answer_query u st)
  | Search q => snd (wiki_search_first_title q st)
  | Summary t => snd (wiki_get_summary t st)
  end.

Definition run_ops (ops : list op) (st : state) : state :=
  fold_left (fun s o => run_op o s) ops st.

(** The states the program can be in: any sequence of calls from the empty
    cache. *)
Definition reachable (st : state) : Prop := exists ops, st = run_ops ops initial.

(** ** Auxiliary notions used in the statements *)

(** What the [try] block of [wiki_search_first_title] makes of a reply: the
    title it caches and returns, if any. *)
Definition title_of_reply (r : reply) : option json :=
  match r with
  | Response status (Some data) =>
      if in_range 400 599 status then None
      else match getitem data 1 with
           | Ok titles =>
               if truthy titles then
                 match getitem titles 0 with Ok t => Some t | Raise _ => None end
               else None
           | Raise _ => None
           end
  | _ => None
  end.

(** What the [try] block of [wiki_get_summary] makes of a reply. *)
Definition extract_of_reply (r : reply) : option json :=
  match r with
  | Response status (Some data) =>
      if in_range 400 599 status then None
      else match dict_get data (py "extract") with
           | Ok summary => if truthy summary then Some summary else None
           | Raise _ => None
           end
  | _ => None
  end.

Definition blank (s : pystr) : Prop := Forall (fun c => isspace c = true) s.

Definition letter (p : N) : bool := in_range 0x61 0x7A p.

(** A literal of a pattern that begins and ends with a lower-case letter and
    has no upper-case letter. *)
Definition wordy (tok : pystr) : bool :=
  match tok with
  | [] => false
  | p :: _ =>
      letter p && letter (List.last tok 0) && forallb (fun c => tolower c =? c) tok
  end.

Definition item_ok (it : item) : bool :=
  match it with WordB => true | Lits alts => forallb wordy alts end.

Definition is_lits (it : item) : bool :=
  match it with WordB => false | Lits _ => true end.

Definition branch_ok (b : branch) : bool := forallb item_ok b && existsb is_lits b.

Definition regex_ok (re : regex) : bool := forallb branch_ok re.

(** The branches the table uses: one group of literals with [\b] before it,
    after it, or both. *)
Definition shape_ok (b : branch) : bool :=
  match b with
  | [WordB; Lits alts; WordB] | [WordB; Lits alts] | [Lits alts; WordB] => forallb wordy alts
  | _ => false
  end.

Definition tokens (re : regex) : list pystr :=
  flat_map (flat_map (fun it => match it with Lits alts => alts | WordB => [] end)) re.

(** [c] is the letter [p] in either case (ASCII). *)
Definition ascii_ci (p c : N) : bool :=
  (c =? p) || (in_range 0x41 0x5A c && (c + 32 =? p)).

(** [tok] occurs in [s] as a word of its own, in any letter case: no word
    character right before or right after the occurrence. *)
Definition standalone_word (tok s : pystr) : Prop :=
  exists pre w post,
    s = pre ++ w ++ post
    /\ Forall2 (fun p c => ascii_ci p c = true) tok w
    /\ opt_word (last pre) = false
    /\ opt_word (head post) = false.

(** No whitespace of [s] follows a [.], [?] or [!]; [prev] is the character
    before [s]. *)
Fixpoint no_boundary (prev : option N) (s : pystr) : bool :=
  match s with
  | [] => true
  | c :: s' => negb (isspace c && ends_sentence prev) && no_boundary (Some c) s'
  end.

(** What holds of the cache in every reachable state: a title is cached
    under a non-empty stripped query, a summary is truthy and cached under a
    non-empty title that [quote] accepts. *)
Definition cache_ok (st : state) : Prop :=
  (forall k v, cached FTitle k st = Some v -> k <> [] /\ strip k = k)
  /\ (forall k v, cached FSummary k st = Some v ->
        k <> [] /\ truthy v = true /\ exists safe, quote k [] = Ok safe).

(** Every field cached in [st] is cached in [st'] with the same value. *)
Definition cache_le (st st' : state) : Prop :=
  forall f k v, cached f k st = Some v -> cached f k st' = Some v.

(** The events a title lookup for [q] can add to the trace. *)
Definition search_event (q : pystr) (e : event) : Prop :=
  e = CacheProbe (JStr q) FTitle \/ e = HttpGet (SearchGet q).

(** What [answer_query] returns once the title lookup gave a truthy [title]
    and the summary lookup gave [summary] (lines 144 to 152). *)
Definition finish (title summary : json) : result pystr :=
  match title with
  | JStr t =>
      if truthy summary then
        match short_sentences_value summary 2, wiki_link t with
        | Ok short, Ok link => Ok (msg_answer t short link)
        | Raise e, _ => Raise e
        | Ok _, Raise e => Raise e
        end
      else
        match wiki_link t with
        | Ok link => Ok (msg_no_summary t link)
        | Raise e => Raise e
        end
  | _ =>
      if truthy summary then
        match short_sentences_value summary 2 with
        | Ok _ => Raise AttributeError
        | Raise e => Raise e
        end
      else Raise AttributeError
  end.

(** [s] neither begins nor ends with whitespace (and is not empty). *)
Definition trimmed (s : pystr) : Prop :=
  (exists c r, s = c :: r /\ isspace c = false)
  /\ (exists r c, s = r ++ [c] /\ isspace c = false).

(** A sentence: it begins with a character that is not whitespace, ends with
    [.], [?] or [!], and no whitespace inside it follows one of these. *)
Definition sentence (s : pystr) : Prop :=
  (exists c r, s = c :: r /\ isspace c = false)
  /\ ends_sentence (last s) = true
  /\ no_boundary None s = true.

(** A sentence [fst p] followed by the whitespace [snd p] that separates it
    from what comes next. *)
Definition separated (p : pystr * pystr) : Prop :=
  sentence (fst p) /\ blank (snd p) /\ snd p <> [].

(** The text made of sentences, each followed by its separator. *)
Fixpoint weave (pairs : list (pystr * pystr)) : pystr :=
  match pairs with
  | [] => []
  | (a, ws) :: pairs' => a ++ ws ++ weave pairs'
  end.

Definition prepend (a : pystr) (parts : list pystr) : list pystr :=
  match parts with
  | [] => [a]
  | p :: ps => (a ++ p) :: ps
  end.

Definition last_or (prev : option N) (l : pystr) : option N :=
  match last l with Some c => Some c | None => prev end.

Definition ends_letter (tok : pystr) : Prop :=
  tok <> [] /\ letter (List.last tok 0) = true.

(** A title as the rest of the program expects it: falsy, or a [str] that
    [quote] accepts. *)
Definition title_ok (v : json) : Prop :=
  truthy v = false \/ exists t safe, v = JStr t /\ quote t [] = Ok safe.

Definition summary_ok (v : json) : Prop := exists s, v = JStr s.

(** The services answer with text where text is expected: whatever the two
    [try] blocks take from a reply is a title, resp. a summary, of that kind.
    Replies from which they take nothing (no connection, an error status, a
    body that is not JSON or not of the expected shape, no result) are not
    constrained. *)
Definition well_typed : Prop :=
  (forall n req title, title_of_reply (remote n req) = Some title -> title_ok title)
  /\ (forall n req summary,
        extract_of_reply (remote n req) = Some summary -> summary_ok summary).

Definition values_ok (st : state) : Prop :=
  (forall k v, cached FTitle k st = Some v -> title_ok v)
  /\ (forall k v, cached FSummary k st = Some v -> summary_ok v).

(** [a] and [b] are the same text up to the case of their ASCII letters. *)
Definition ci_same (a b : pystr) : Prop :=
  Forall2 (fun x y => ascii_lower x = ascii_lower y) a b.

Definition opt_ci (p q : option N) : Prop :=
  match p, q with
  | Some x, Some y => ascii_lower x = ascii_lower y
  | None, None => True
  | _, _ => False
  end.

(** A request that brings nothing back: no connection (or a timeout), an
    error status, or a body that is not JSON. *)
Definition failed (r : reply) : Prop :=
  r = ConnectionFailed
  \/ exists status body,
       r = Response status body /\ (in_range 400 599 status = true \/ body = None).

(** A reply to the summary request that brings no summary: the request
    failed, or the body is JSON that is not an object, or an object with no
    [extract] or with one that is falsy ([null], the empty string, ...). *)
Definition no_extract (r : reply) : Prop :=
  failed r
  \/ exists status data,
       r = Response status (Some data)
       /\ ((forall kv, data <> JObj kv)
           \/ exists kv, data = JObj kv
                /\ (assoc (py "extract") kv = None
                    \/ exists v, assoc (py "extract") kv = Some v /\ truthy v = false)).

(** The characters of a percent-encoded text: unreserved ones and [%]. *)
Definition url_char (c : N) : bool := always_safe c || (c =? 0x25).

(** The services answer with text the console can write: the titles and
    extracts that the two [try] blocks take from a reply, when they are
    [str], have writable characters only. *)
Definition writable_replies (stdout_ok : N -> bool) : Prop :=
  (forall n req t,
      title_of_reply (remote n req) = Some (JStr t) -> can_print stdout_ok t = true)
  /\ (forall n req s,
        extract_of_reply (remote n req) = Some (JStr s) -> can_print stdout_ok s = true).

(** The console can write every text cached in [st]. *)
Definition cache_writable (stdout_ok : N -> bool) (st : state) : Prop :=
  forall f k t, cached f k st = Some (JStr t) -> can_print stdout_ok t = true.

(** ** Characters *)

Ltac bool_to_prop H :=
  repeat first
    [ rewrite orb_true_iff in H | rewrite andb_true_iff in H
    | rewrite N.leb_le in H | rewrite N.eqb_eq in H | rewrite N.ltb_lt in H ].

Lemma isspace_bounds c :
  isspace c = true -> c <= 0x20 \/ 0x85 <= c.
Proof.
  unfold isspace, in_range. intros H. bool_to_prop H. lia.
Qed.

Lemma isspace_cases c :
  isspace c = true ->
  c <= 0x20 \/ c = 0x85 \/ c = 0xA0 \/ c = 0x1680 \/ (0x2000 <= c <= 0x200A)
  \/ c = 0x2028 \/ c = 0x2029 \/ c = 0x202F \/ c = 0x205F \/ c = 0x3000.
Proof.
  unfold isspace, in_range. intros H. bool_to_prop H. lia.
Qed.

Lemma in_range_false lo hi c : c < lo \/ hi < c -> in_range lo hi c = false.
Proof.
  unfold in_range. intros [H|H].
  - apply N.leb_gt in H. now rewrite H.
  - apply N.leb_gt in H. rewrite H. apply andb_false_r.
Qed.

Lemma in_range_true lo hi c : in_range lo hi c = true <-> lo <= c <= hi.
Proof. unfold in_range. rewrite andb_true_iff, !N.leb_le. tauto. Qed.

Lemma space_not_word c : isspace c = true -> is_word c = false.
Proof.
  intros H. unfold is_word. destruct (N.ltb_spec c 0x80) as [Hlt|Hge].
  - destruct (isspace_bounds c H) as [Hb|Hb]; [|lia].
    unfold is_ascii_alnum. rewrite !in_range_false by lia.
    simpl. apply N.eqb_neq. lia.
  - now apply unicode_space_not_alnum.
Qed.

Lemma tolower_space c : isspace c = true -> tolower c = c.
Proof.
  intros H. apply isspace_cases in H. unfold tolower.
  rewrite in_range_false by lia.
  destruct (N.eqb_spec c 0x130); [lia|].
  destruct (N.eqb_spec c 0x212A); [lia|]. reflexivity.
Qed.

Lemma letter_not_space p c :
  letter p = true -> isspace c = true -> ci_literal p c = false.
Proof.
  intros Hp Hc. unfold ci_literal. rewrite (tolower_space c Hc).
  apply in_range_true in Hp. apply isspace_cases in Hc.
  destruct (N.eqb_spec c p); [lia|].
  destruct (N.eqb_spec c 0x131); [lia|].
  destruct (N.eqb_spec c 0x17F); [lia|].
  now rewrite !andb_false_r.
Qed.

Lemma ascii_ci_literal p c :
  tolower p = p -> ascii_ci p c = true -> ci_literal p c = true.
Proof.
  unfold ascii_ci, ci_literal. intros Hp H.
  apply orb_true_iff in H as [H|H].
  - apply N.eqb_eq in H. subst c. rewrite Hp, N.eqb_refl. reflexivity.
  - apply andb_true_iff in H as [Hr H]. apply N.eqb_eq in H.
    unfold tolower. rewrite Hr, H, N.eqb_refl. reflexivity.
Qed.

Lemma ascii_ci_word p c : letter p = true -> ascii_ci p c = true -> is_word c = true.
Proof.
  unfold ascii_ci, letter. intros Hp H. apply in_range_true in Hp.
  assert (Hc : 0x41 <= c <= 0x5A \/ 0x61 <= c <= 0x7A).
  { apply orb_true_iff in H as [H|H].
    - apply N.eqb_eq in H. lia.
    - apply andb_true_iff in H as [Hr _]. apply in_range_true in Hr. lia. }
  unfold is_word. destruct (N.ltb_spec c 0x80); [|lia].
  unfold is_ascii_alnum.
  destruct Hc as [Hc|Hc].
  - apply in_range_true in Hc. rewrite Hc. now rewrite orb_true_r.
  - apply in_range_true in Hc. rewrite Hc. now rewrite !orb_true_r.
Qed.
(** ** [strip] *)

Lemma lstrip_blank s : blank s -> lstrip s = [].
Proof.
  induction 1 as [|c s Hc _ IH]; simpl; [reflexivity|]. now rewrite Hc.
Qed.

Lemma lstrip_decomp s : exists ws, s = ws ++ lstrip s /\ blank ws.
Proof.
  induction s as [|c s [ws [Heq Hws]]]; simpl.
  - exists []. split; [reflexivity|constructor].
  - destruct (isspace c) eqn:E.
    + exists (c :: ws). split; [simpl; congruence|now constructor].
    + exists []. split; [reflexivity|constructor].
Qed.

Lemma lstrip_head s c r : lstrip s = c :: r -> isspace c = false.
Proof.
  induction s as [|a s IH]; simpl; [discriminate|].
  destruct (isspace a) eqn:E; [exact IH|]. intros [= <- _]. exact E.
Qed.

Lemma lstrip_idem s : lstrip (lstrip s) = lstrip s.
Proof.
  destruct (lstrip s) as [|c r] eqn:E; [reflexivity|].
  simpl. now rewrite (lstrip_head _ _ _ E).
Qed.

Lemma rstrip_decomp s : exists ws, s = rstrip s ++ ws /\ blank ws.
Proof.
  destruct (lstrip_decomp (rev s)) as [ws [Heq Hws]].
  exists (rev ws). split.
  - unfold rstrip. rewrite <- rev_app_distr, <- Heq. now rewrite rev_involutive.
  - unfold blank in *. rewrite Forall_forall in *. intros c Hc.
    apply Hws. apply list_elem_of_In. apply list_elem_of_In in Hc.
    now apply in_rev.
Qed.

Lemma rstrip_idem s : rstrip (rstrip s) = rstrip s.
Proof. unfold rstrip. now rewrite rev_involutive, lstrip_idem. Qed.

Lemma lstrip_rstrip s : lstrip s = s -> lstrip (rstrip s) = rstrip s.
Proof.
  intros Hs. destruct (rstrip_decomp s) as [ws [Heq _]].
  destruct (rstrip s) as [|c r]; [reflexivity|].
  rewrite Heq in Hs. simpl in Hs.
  simpl. destruct (isspace c) eqn:E; [|reflexivity].
  exfalso. pose proof (lstrip_decomp (r ++ ws)) as [ws' [Hd _]].
  rewrite Hs in Hd. apply (f_equal length) in Hd.
  rewrite length_app in Hd. simpl in Hd. rewrite !length_app in Hd. simpl in Hd.
  rewrite length_app in Hd. lia.
Qed.

Lemma strip_idem s : strip (strip s) = strip s.
Proof.
  unfold strip. rewrite (lstrip_rstrip (lstrip s)) by apply lstrip_idem.
  apply rstrip_idem.
Qed.

Lemma strip_decomp s :
  exists ws1 ws2, s = ws1 ++ strip s ++ ws2 /\ blank ws1 /\ blank ws2.
Proof.
  destruct (lstrip_decomp s) as [ws1 [H1 B1]].
  destruct (rstrip_decomp (lstrip s)) as [ws2 [H2 B2]].
  exists ws1, ws2. unfold strip. rewrite <- H2. auto.
Qed.

Lemma strip_blank s : blank s -> strip s = [].
Proof. intros H. unfold strip. now rewrite (lstrip_blank s H). Qed.

(** ** The patterns do not see surrounding whitespace *)

Lemma existsb_ext_in {A} (f g : A -> bool) l :
  (forall x, In x l -> f x = g x) -> existsb f l = existsb g l.
Proof.
  induction l as [|a l IH]; simpl; intros H; [reflexivity|].
  rewrite H by now left. rewrite IH; [reflexivity|]. intros x Hx. apply H. now right.
Qed.

Lemma existsb_false_in {A} (f : A -> bool) l :
  (forall x, In x l -> f x = false) -> existsb f l = false.
Proof.
  induction l as [|a l IH]; simpl; intros H; [reflexivity|].
  rewrite H by now left. apply IH. intros x Hx. apply H. now right.
Qed.

Lemma wordy_inv tok :
  wordy tok = true ->
  exists p r, tok = p :: r /\ letter p = true /\ ends_letter tok
              /\ Forall (fun c => tolower c = c) tok.
Proof.
  destruct tok as [|p r]; [discriminate|]. unfold wordy.
  rewrite !andb_true_iff. intros [[Hp Hl] Hf].
  exists p, r. repeat split; auto; try discriminate.
  apply Forall_forall. intros c Hc. apply list_elem_of_In in Hc.
  rewrite forallb_forall in Hf. now apply N.eqb_eq, Hf.
Qed.

Lemma ends_letter_tail p p' t : ends_letter (p :: p' :: t) -> ends_letter (p' :: t).
Proof. intros [_ H]. split; [discriminate|exact H]. Qed.

Lemma eat_prev tok p1 p2 s : tok <> [] -> eat tok p1 s = eat tok p2 s.
Proof. destruct tok; [congruence|reflexivity]. Qed.

Lemma eat_app_some tok : forall prev l ws p' rest,
  eat tok prev l = Some (p', rest) -> eat tok prev (l ++ ws) = Some (p', rest ++ ws).
Proof.
  induction tok as [|p tok IH]; simpl; intros prev l ws p' rest H.
  - now inversion H.
  - destruct l as [|c l]; [discriminate|]. simpl.
    destruct (ci_literal p c); [now apply IH|discriminate].
Qed.

Lemma eat_blank_none tok : forall prev ws,
  ends_letter tok -> blank ws -> eat tok prev ws = None.
Proof.
  induction tok as [|p tok IH]; intros prev ws Ht Hws.
  - now destruct Ht.
  - simpl. destruct ws as [|c ws]; [reflexivity|].
    inversion Hws as [|? ? Hc Hws']; subst.
    destruct tok as [|p' t].
    + destruct Ht as [_ Ht]. simpl in Ht. now rewrite (letter_not_space p c).
    + destruct (ci_literal p c); [|reflexivity].
      apply IH; [now apply ends_letter_tail in Ht|assumption].
Qed.

Lemma eat_app_none tok : forall prev l ws,
  ends_letter tok -> blank ws -> eat tok prev l = None -> eat tok prev (l ++ ws) = None.
Proof.
  induction tok as [|p tok IH]; intros prev l ws Ht Hws H.
  - discriminate.
  - destruct l as [|c l].
    + now apply eat_blank_none.
    + simpl in *. destruct (ci_literal p c); [|reflexivity].
      destruct tok as [|p' t]; [discriminate|].
      apply IH; [now apply ends_letter_tail in Ht|assumption|assumption].
Qed.

Lemma opt_word_head_app rest ws :
  blank ws -> opt_word (head (rest ++ ws)) = opt_word (head rest).
Proof.
  intros Hws. destruct rest as [|c r]; [|reflexivity].
  simpl. destruct Hws as [|c ws Hc _]; [reflexivity|].
  simpl. now apply space_not_word.
Qed.

Lemma match_items_prev b : forall p1 p2 s,
  forallb item_ok b = true -> opt_word p1 = opt_word p2 ->
  match_items b p1 s = match_items b p2 s.
Proof.
  induction b as [|it b IH]; intros p1 p2 s Hok Hp; [reflexivity|].
  simpl in Hok. apply andb_true_iff in Hok as [Hit Hok].
  destruct it as [|alts]; simpl.
  - unfold word_boundary. rewrite Hp. f_equal. now apply IH.
  - apply existsb_ext_in. intros tok Hin.
    simpl in Hit. rewrite forallb_forall in Hit.
    destruct (wordy_inv tok (Hit tok Hin)) as (p & r & -> & _).
    reflexivity.
Qed.

Lemma match_items_app b : forall prev l ws,
  forallb item_ok b = true -> blank ws ->
  match_items b prev (l ++ ws) = match_items b prev l.
Proof.
  induction b as [|it b IH]; intros prev l ws Hok Hws; [reflexivity|].
  simpl in Hok. apply andb_true_iff in Hok as [Hit Hok].
  destruct it as [|alts]; simpl.
  - unfold word_boundary. rewrite opt_word_head_app by assumption.
    f_equal. now apply IH.
  - apply existsb_ext_in. intros tok Hin.
    simpl in Hit. rewrite forallb_forall in Hit.
    destruct (wordy_inv tok (Hit tok Hin)) as (p & r & Htok & _ & Hend & _).
    destruct (eat tok prev l) as [[p' rest]|] eqn:E.
    + rewrite (eat_app_some _ _ _ ws _ _ E). now apply IH.
    + now rewrite (eat_app_none _ _ _ ws Hend Hws E).
Qed.

Lemma match_items_nil b prev :
  branch_ok b = true -> match_items b prev [] = false.
Proof.
  unfold branch_ok. rewrite andb_true_iff. intros [Hok Hex].
  induction b as [|it b IH]; [discriminate|].
  simpl in Hok. apply andb_true_iff in Hok as [Hit Hok].
  destruct it as [|alts]; simpl.
  - simpl in Hex. rewrite IH by assumption. apply andb_false_r.
  - apply existsb_false_in. intros tok Hin.
    simpl in Hit. rewrite forallb_forall in Hit.
    destruct (wordy_inv tok (Hit tok Hin)) as (p & r & -> & _).
    reflexivity.
Qed.

Lemma match_items_space b c s :
  branch_ok b = true -> isspace c = true -> match_items b None (c :: s) = false.
Proof.
  unfold branch_ok. rewrite andb_true_iff. intros [Hok Hex] Hc.
  destruct b as [|it b]; [discriminate|].
  simpl in Hok. apply andb_true_iff in Hok as [Hit Hok].
  destruct it as [|alts]; simpl.
  - unfold word_boundary. simpl. now rewrite (space_not_word c Hc).
  - apply existsb_false_in. intros tok Hin.
    simpl in Hit. rewrite forallb_forall in Hit.
    destruct (wordy_inv tok (Hit tok Hin)) as (p & r & -> & Hp & _).
    simpl. now rewrite (letter_not_space p c Hp Hc).
Qed.

Lemma branch_ok_items b : branch_ok b = true -> forallb item_ok b = true.
Proof. unfold branch_ok. rewrite andb_true_iff. tauto. Qed.

Lemma match_here_prev re p1 p2 s :
  regex_ok re = true -> opt_word p1 = opt_word p2 ->
  match_here re p1 s = match_here re p2 s.
Proof.
  intros Hre Hp. unfold match_here. apply existsb_ext_in. intros b Hb.
  unfold regex_ok in Hre. rewrite forallb_forall in Hre.
  apply match_items_prev; [apply branch_ok_items; auto|assumption].
Qed.

Lemma match_here_app re prev l ws :
  regex_ok re = true -> blank ws ->
  match_here re prev (l ++ ws) = match_here re prev l.
Proof.
  intros Hre Hws. unfold match_here. apply existsb_ext_in. intros b Hb.
  unfold regex_ok in Hre. rewrite forallb_forall in Hre.
  apply match_items_app; [apply branch_ok_items; auto|assumption].
Qed.

Lemma match_here_nil re prev : regex_ok re = true -> match_here re prev [] = false.
Proof.
  intros Hre. unfold match_here. apply existsb_false_in. intros b Hb.
  unfold regex_ok in Hre. rewrite forallb_forall in Hre.
  apply match_items_nil; auto.
Qed.

Lemma match_here_space re c s :
  regex_ok re = true -> isspace c = true -> match_here re None (c :: s) = false.
Proof.
  intros Hre Hc. unfold match_here. apply existsb_false_in. intros b Hb.
  unfold regex_ok in Hre. rewrite forallb_forall in Hre.
  apply match_items_space; auto.
Qed.

Lemma search_from_prev re p1 p2 s :
  regex_ok re = true -> opt_word p1 = opt_word p2 ->
  search_from re p1 s = search_from re p2 s.
Proof.
  intros Hre Hp. destruct s; simpl; now rewrite (match_here_prev re p1 p2).
Qed.

Lemma search_from_blank re : forall prev ws,
  regex_ok re = true -> blank ws -> search_from re prev ws = false.
Proof.
  intros prev ws Hre Hws. revert prev.
  induction Hws as [|c ws Hc Hws IH]; intros prev; simpl.
  - now rewrite match_here_nil.
  - rewrite IH, orb_false_r.
    change (c :: ws) with ([] ++ c :: ws).
    rewrite match_here_app; [now apply match_here_nil|assumption|now constructor].
Qed.

Lemma search_from_app re : forall s prev ws,
  regex_ok re = true -> blank ws ->
  search_from re prev (s ++ ws) = search_from re prev s.
Proof.
  induction s as [|c s IH]; intros prev ws Hre Hws.
  - simpl app. rewrite search_from_blank by assumption.
    simpl. now rewrite match_here_nil.
  - simpl. rewrite IH by assumption. f_equal.
    change (c :: s ++ ws) with ((c :: s) ++ ws). now apply match_here_app.
Qed.

Lemma re_search_lead re ws s :
  regex_ok re = true -> blank ws -> re_search re (ws ++ s) = re_search re s.
Proof.
  intros Hre Hws. unfold re_search.
  induction Hws as [|c ws Hc Hws IH]; [reflexivity|].
  simpl. rewrite match_here_space by assumption. simpl.
  rewrite <- IH. apply search_from_prev; [assumption|].
  simpl. now apply space_not_word.
Qed.

Lemma re_search_strip re s :
  regex_ok re = true -> re_search re (strip s) = re_search re s.
Proof.
  intros Hre. destruct (strip_decomp s) as (ws1 & ws2 & Heq & B1 & B2).
  rewrite Heq at 2. rewrite re_search_lead by assumption.
  unfold re_search. now rewrite search_from_app.
Qed.

(** ** Small talk *)

Lemma small_talk_checked :
  forallb (fun info =>
             regex_ok (pattern info) && forallb shape_ok (pattern info)
             && match replies info with (_ :: _) :: _ => true | _ => false end)
          SMALL_TALK = true.
Proof. reflexivity. Qed.

Lemma small_talk_rule info :
  In info SMALL_TALK ->
  regex_ok (pattern info) = true
  /\ forallb shape_ok (pattern info) = true
  /\ exists c r rest, replies info = (c :: r) :: rest.
Proof.
  intros Hin. pose proof small_talk_checked as H.
  rewrite forallb_forall in H. specialize (H info Hin).
  apply andb_true_iff in H as [H Hr]. apply andb_true_iff in H as [H1 H2].
  repeat split; try assumption.
  destruct (replies info) as [|[|c r] rest]; try discriminate. eauto.
Qed.

Lemma check_rules_strip rules s :
  (forall info, In info rules -> regex_ok (pattern info) = true) ->
  check_rules rules (strip s) = check_rules rules s.
Proof.
  induction rules as [|info rules IH]; intros Hok; [reflexivity|].
  simpl. rewrite re_search_strip by (apply Hok; now left).
  rewrite IH; [reflexivity|]. intros r Hr. apply Hok. now right.
Qed.

Lemma check_small_talk_strip s : check_small_talk (strip s) = check_small_talk s.
Proof.
  apply check_rules_strip. intros info Hin. now apply small_talk_rule.
Qed.

Lemma check_rules_first pre info post text reply rest :
  (forall r, In r pre -> re_search (pattern r) text = false) ->
  re_search (pattern info) text = true ->
  replies info = reply :: rest ->
  check_rules (pre ++ info :: post) text = Ok (Some reply).
Proof.
  intros Hpre Hm Hr. induction pre as [|r pre IH]; simpl.
  - now rewrite Hm, Hr.
  - rewrite (Hpre r) by now left. apply IH. intros r' Hr'. apply Hpre. now right.
Qed.

Lemma check_rules_none rules text :
  (forall r, In r rules -> re_search (pattern r) text = false) ->
  check_rules rules text = Ok None.
Proof.
  induction rules as [|r rules IH]; intros H; [reflexivity|].
  simpl. rewrite (H r) by now left. apply IH. intros r' Hr'. apply H. now right.
Qed.

Lemma first_match rules info text :
  In info rules -> re_search (pattern info) text = true ->
  exists pre first post,
    rules = pre ++ first :: post
    /\ (forall r, In r pre -> re_search (pattern r) text = false)
    /\ re_search (pattern first) text = true
    /\ (first = info \/ In info post).
Proof.
  induction rules as [|r rules IH]; intros Hin Hm; [destruct Hin|].
  destruct (re_search (pattern r) text) eqn:E.
  - exists [], r, rules. split; [reflexivity|]. split; [intros ? []|].
    split; [assumption|]. destruct Hin as [->|Hin]; auto.
  - destruct Hin as [->|Hin]; [congruence|].
    destruct (IH Hin Hm) as (pre & first & post & -> & Hpre & Hf & Hor).
    exists (r :: pre), first, post. split; [reflexivity|].
    split; [|split; assumption].
    intros r' [<-|Hr']; auto.
Qed.

Lemma re_search_nil re : regex_ok re = true -> re_search re [] = false.
Proof.
  intros H. unfold re_search. simpl. now rewrite match_here_nil.
Qed.

Lemma answer_query_reply input reply st :
  strip input <> [] -> reply <> [] ->
  check_small_talk (strip input) = Ok (Some reply) ->
  answer_query input st = (Ok reply, st).
Proof.
  intros Hq Hr Hc. unfold answer_query.
  destruct (strip input) as [|c q] eqn:E; [congruence|].
  simpl is_nil. cbv iota. unfold bind, lift. rewrite Hc.
  destruct reply; [congruence|reflexivity].
Qed.

Lemma answer_query_first_match input pre info post st :
  SMALL_TALK = pre ++ info :: post ->
  (forall r, In r pre -> re_search (pattern r) input = false) ->
  re_search (pattern info) input = true ->
  exists reply rest,
    replies info = reply :: rest /\ answer_query input st = (Ok reply, st).
Proof.
  intros Heq Hpre Hm.
  assert (Hin : In info SMALL_TALK) by (rewrite Heq; apply in_elt).
  destruct (small_talk_rule info Hin) as (Hok & _ & c & r & rest & Hr).
  exists (c :: r), rest. split; [assumption|].
  apply answer_query_reply; [|discriminate|].
  - intros Hnil. rewrite <- (re_search_strip _ input Hok), Hnil in Hm.
    now rewrite re_search_nil in Hm.
  - rewrite check_small_talk_strip. unfold check_small_talk. rewrite Heq.
    now apply check_rules_first with (rest := rest).
Qed.

(** C4.  An input that a rule of [SMALL_TALK] matches, and no rule before it
    in the table does, is answered with the first reply of that rule; the
    state is the one before the call (no request, no cache access), whatever
    the remote services would have answered. *)
Theorem answer_query_small_talk input pre info post st :
  SMALL_TALK = pre ++ info :: post ->
  (forall r, In r pre -> re_search (pattern r) input = false) ->
  re_search (pattern info) input = true ->
  exists reply rest,
    replies info = reply :: rest /\ answer_query input st = (Ok reply, st).
Proof. apply answer_query_first_match. Qed.

(** C6.  An input of whitespace only (or empty) is answered with the fixed
    prompt, and the state is untouched: no request is made and the cache is
    neither read nor written. *)
Theorem answer_query_blank input st :
  blank input -> answer_query input st = (Ok MSG_EMPTY, st).
Proof.
  intros H. unfold answer_query. now rewrite (strip_blank input H).
Qed.

(** ** A token standing as a word of its own is found by the pattern *)

Lemma last_or_cons prev c l : last_or prev (c :: l) = last_or (Some c) l.
Proof. unfold last_or. rewrite last_cons. now destruct (last l). Qed.

Lemma eat_exact tok : forall w prev post,
  Forall2 (fun p c => ascii_ci p c = true) tok w ->
  Forall (fun c => tolower c = c) tok ->
  eat tok prev (w ++ post) = Some (last_or prev w, post).
Proof.
  induction tok as [|p tok IH]; intros w prev post H2 Hl.
  - apply Forall2_nil_inv_l in H2. subst w. reflexivity.
  - apply Forall2_cons_inv_l in H2 as (c & w' & Hc & H2 & ->).
    apply Forall_cons in Hl as [Hp Hl].
    simpl. rewrite (ascii_ci_literal p c Hp Hc).
    rewrite last_or_cons. now apply IH.
Qed.

Lemma ci_first_word tok w :
  Forall2 (fun p c => ascii_ci p c = true) tok w ->
  (exists p r, tok = p :: r /\ letter p = true) ->
  opt_word (head w) = true.
Proof.
  intros H2 (p & r & -> & Hp).
  apply Forall2_cons_inv_l in H2 as (c & w' & Hc & _ & ->).
  simpl. now apply ascii_ci_word with p.
Qed.

Lemma ci_last_word tok : forall w prev,
  Forall2 (fun p c => ascii_ci p c = true) tok w ->
  ends_letter tok ->
  opt_word (last_or prev w) = true.
Proof.
  induction tok as [|p tok IH]; intros w prev H2 He.
  - now destruct He.
  - apply Forall2_cons_inv_l in H2 as (c & w' & Hc & H2 & ->).
    rewrite last_or_cons. destruct tok as [|p' t].
    + apply Forall2_nil_inv_l in H2. subst w'. destruct He as [_ He].
      simpl in *. now apply ascii_ci_word with p.
    + apply IH; [assumption|now apply ends_letter_tail in He].
Qed.

Lemma search_from_skip re : forall pre prev rest,
  match_here re (last_or prev pre) rest = true ->
  search_from re prev (pre ++ rest) = true.
Proof.
  induction pre as [|c pre IH]; intros prev rest H.
  - simpl. destruct rest; simpl; unfold last_or in H; simpl in H; now rewrite H.
  - simpl. rewrite last_or_cons in H. rewrite (IH _ _ H). apply orb_true_r.
Qed.

Lemma group_match (K : option N -> pystr -> bool) alts tok w prev post :
  In tok alts -> wordy tok = true ->
  Forall2 (fun p c => ascii_ci p c = true) tok w ->
  K (last_or prev w) post = true ->
  existsb (fun tok0 =>
             match eat tok0 prev (w ++ post) with
             | Some (prev', s') => K prev' s'
             | None => false
             end) alts = true.
Proof.
  intros Hin Hw H2 HK. apply existsb_exists. exists tok. split; [assumption|].
  destruct (wordy_inv tok Hw) as (p & r & _ & _ & _ & Hl).
  now rewrite (eat_exact tok w prev post H2 Hl).
Qed.

Lemma shape_ok_match b alts tok w prev post :
  shape_ok b = true -> In (Lits alts) b -> In tok alts ->
  Forall2 (fun p c => ascii_ci p c = true) tok w ->
  opt_word prev = false -> opt_word (head post) = false ->
  match_items b prev (w ++ post) = true.
Proof.
  intros Hs Hb Hin H2 Hprev Hpost.
  assert (Hcase : forallb wordy alts = true /\
            (b = [WordB; Lits alts; WordB] \/ b = [WordB; Lits alts]
             \/ b = [Lits alts; WordB])).
  { destruct b as [|[|a1] [|[|a2] [|[|a3] [|? ?]]]]; simpl in Hs; try discriminate;
      simpl in Hb; intuition (try discriminate);
      repeat match goal with H : Lits _ = Lits _ |- _ => inversion H; subst; clear H end;
      auto. }
  destruct Hcase as [Hw Hcase]. rewrite forallb_forall in Hw.
  pose proof (Hw tok Hin) as Htok.
  destruct (wordy_inv tok Htok) as (p & r & Hpr & Hp & He & Hl).
  assert (Hfirst : word_boundary prev (head (w ++ post)) = true).
  { unfold word_boundary. rewrite Hprev.
    assert (Hh : opt_word (head w) = true) by (eapply ci_first_word; eauto).
    destruct w as [|c w]; [discriminate|]. simpl in *. now rewrite Hh. }
  assert (Hlast : word_boundary (last_or prev w) (head post) = true).
  { unfold word_boundary. rewrite Hpost.
    now rewrite (ci_last_word tok w prev H2 He). }
  destruct Hcase as [-> | [-> | ->]]; simpl match_items.
  - rewrite Hfirst. simpl.
    apply (group_match (fun p' s' => word_boundary p' (head s') && true) alts tok w);
      auto. now rewrite Hlast.
  - rewrite Hfirst. simpl.
    apply (group_match (fun _ _ => true) alts tok w); auto.
  - apply (group_match (fun p' s' => word_boundary p' (head s') && true) alts tok w);
      auto. now rewrite Hlast.
Qed.

Lemma tokens_in re tok :
  In tok (tokens re) -> exists b alts, In b re /\ In (Lits alts) b /\ In tok alts.
Proof.
  unfold tokens. rewrite in_flat_map. intros (b & Hb & Hin).
  rewrite in_flat_map in Hin. destruct Hin as (it & Hit & Hin).
  destruct it as [|alts]; [destruct Hin|]. eauto.
Qed.

Lemma standalone_word_search re tok s :
  forallb shape_ok re = true -> In tok (tokens re) ->
  standalone_word tok s -> re_search re s = true.
Proof.
  intros Hre Htok (pre & w & post & -> & H2 & Hpre & Hpost).
  destruct (tokens_in re tok Htok) as (b & alts & Hb & Hits & Hin).
  rewrite forallb_forall in Hre.
  unfold re_search. apply search_from_skip.
  unfold match_here. apply existsb_exists. exists b. split; [assumption|].
  apply shape_ok_match with alts tok; auto.
  unfold last_or. now destruct (last pre).
Qed.

(** C10, as amended.  An input in which a token of some rule stands as a
    word of its own is answered with the first reply of the first rule of the
    table that matches it, which is that rule or one declared before it; the
    state is the one before the call. *)
Theorem answer_query_word_anywhere input info tok st :
  In info SMALL_TALK -> In tok (tokens (pattern info)) ->
  standalone_word tok input ->
  exists pre first post reply rest,
    SMALL_TALK = pre ++ first :: post
    /\ (forall r, In r pre -> re_search (pattern r) input = false)
    /\ re_search (pattern first) input = true
    /\ (first = info \/ In info post)
    /\ replies first = reply :: rest
    /\ answer_query input st = (Ok reply, st).
Proof.
  intros Hin Htok Hs.
  destruct (small_talk_rule info Hin) as (_ & Hshape & _).
  pose proof (standalone_word_search _ _ _ Hshape Htok Hs) as Hm.
  destruct (first_match SMALL_TALK info input Hin Hm)
    as (pre & first & post & Heq & Hpre & Hf & Hor).
  destruct (answer_query_first_match input pre first post st Heq Hpre Hf)
    as (reply & rest & Hr & Ha).
  exists pre, first, post, reply, rest. auto 10.
Qed.

(** ** The cache and the trace *)

Lemma count_app p t1 t2 : count p (t1 ++ t2) = (count p t1 + count p t2)%nat.
Proof. unfold count. now rewrite filter_app, length_app. Qed.

Lemma count_probe p k f t :
  p (CacheProbe k f) = false -> count p (t ++ [CacheProbe k f]) = count p t.
Proof.
  intros H. rewrite count_app. unfold count at 2. simpl.
  rewrite filter_cons_False by (rewrite H; discriminate). simpl. lia.
Qed.

Lemma cached_log f k ev st : cached f k (log ev st) = cached f k st.
Proof. reflexivity. Qed.

Lemma cached_store f k f' k' v st :
  cached f k (store k' f' v st)
  = if decide (k' = k /\ f' = f) then Some v else cached f k st.
Proof.
  unfold cached, store. simpl.
  destruct (decide (k' = k)) as [->|Hne].
  - rewrite lookup_insert_eq. simpl.
    destruct (cache st !! k) as [e|]; destruct f, f'; simpl;
      case_decide; try reflexivity; intuition congruence.
  - rewrite lookup_insert_ne by assumption.
    case_decide; [intuition congruence|reflexivity].
Qed.

Lemma trace_store k f v st : trace (store k f v st) = trace st.
Proof. reflexivity. Qed.

(** ** The two lookups, as functions of the cache and of the reply *)

Lemma wiki_search_first_title_eq query st :
  wiki_search_first_title query st =
  let q := strip query in
  if is_nil q then (Ok JNull, st)
  else
    let st0 := log (CacheProbe (JStr q) FTitle) st in
    match cached FTitle q st with
    | Some title => (Ok title, st0)
    | None =>
        let st1 := log (HttpGet (SearchGet q)) st0 in
        match title_of_reply (remote (count is_request (trace st)) (SearchGet q)) with
        | Some title => (Ok title, store q FTitle title st1)
        | None => (Ok JNull, st1)
        end
    end.
Proof.
  unfold wiki_search_first_title. cbv zeta.
  destruct (is_nil (strip query)); [reflexivity|].
  unfold bind at 1. unfold cache_get.
  destruct (cached FTitle (strip query) st) as [v|]; [reflexivity|].
  unfold bind, try_except, requests_get. simpl trace.
  rewrite count_probe by reflexivity.
  destruct (remote _ _) as [|status body]; [reflexivity|].
  unfold title_of_reply, raise_for_status. cbn [fst snd].
  destruct (in_range 400 599 status); [now destruct body|].
  destruct body as [data|]; [|reflexivity]. simpl.
  unfold lift. destruct (getitem data 1) as [titles|e]; [|reflexivity].
  destruct (truthy titles); [|reflexivity].
  destruct (getitem titles 0) as [title|e]; reflexivity.
Qed.

Lemma wiki_get_summary_eq t st :
  wiki_get_summary (JStr t) st =
  if is_nil t then (Ok JNull, st)
  else
    let st0 := log (CacheProbe (JStr t) FSummary) st in
    match cached FSummary t st with
    | Some summary => (Ok summary, st0)
    | None =>
        match quote t [] with
        | Raise e => (Raise e, st0)
        | Ok safe =>
            let req := SummaryGet (WIKI_SUMMARY_URL safe) in
            let st1 := log (HttpGet req) st0 in
            match extract_of_reply (remote (count is_request (trace st)) req) with
            | Some summary => (Ok summary, store t FSummary summary st1)
            | None => (Ok JNull, st1)
            end
        end
    end.
Proof.
  unfold wiki_get_summary. destruct t as [|c t]; [reflexivity|].
  cbn [truthy negb is_nil]. cbv zeta.
  unfold bind at 1. unfold cache_get.
  destruct (cached FSummary (c :: t) st) as [v|]; [reflexivity|].
  unfold bind at 1. unfold lift.
  destruct (quote (c :: t) []) as [safe|e]; [|reflexivity].
  unfold bind, try_except, requests_get. simpl trace.
  rewrite count_probe by reflexivity.
  destruct (remote _ _) as [|status body]; [reflexivity|].
  unfold extract_of_reply, raise_for_status. cbn [fst snd].
  destruct (in_range 400 599 status); [now destruct body|].
  destruct body as [data|]; [|reflexivity]. simpl.
  unfold lift. destruct (dict_get data (py "extract")) as [summary|e]; [|reflexivity].
  destruct (truthy summary); reflexivity.
Qed.

(** A title that is not a [str]: nothing if it is falsy, a [TypeError]
    otherwise. *)
Lemma wiki_get_summary_not_str title st :
  (forall t, title <> JStr t) ->
  wiki_get_summary title st =
  if negb (truthy title) then (Ok JNull, st)
  else match title with
       | JArr _ | JObj _ => (Raise TypeError, st)
       | _ => (Raise TypeError, log (CacheProbe title FSummary) st)
       end.
Proof.
  intros Hns. unfold wiki_get_summary.
  destruct (negb (truthy title)); [reflexivity|].
  destruct title; try reflexivity. now destruct (Hns s).
Qed.

Lemma answer_query_lookup input st :
  strip input <> [] -> check_small_talk (strip input) = Ok None ->
  answer_query input st =
  match wiki_search_first_title (strip input) st with
  | (Raise e, st1) => (Raise e, st1)
  | (Ok title, st1) =>
      if negb (truthy title) then (Ok MSG_NO_MATCH, st1)
      else
        match wiki_get_summary title st1 with
        | (Raise e, st2) => (Raise e, st2)
        | (Ok summary, st2) =>
            match title with
            | JStr t =>
                if truthy summary then
                  match short_sentences_value summary 2, wiki_link t with
                  | Ok short, Ok link => (Ok (msg_answer t short link), st2)
                  | Raise e, _ => (Raise e, st2)
                  | Ok _, Raise e => (Raise e, st2)
                  end
                else
                  match wiki_link t with
                  | Ok link => (Ok (msg_no_summary t link), st2)
                  | Raise e => (Raise e, st2)
                  end
            | _ =>
                if truthy summary then
                  match short_sentences_value summary 2 with
                  | Ok _ => (Raise AttributeError, st2)
                  | Raise e => (Raise e, st2)
                  end
                else (Raise AttributeError, st2)
            end
        end
  end.
Proof.
  intros Hq Hc. unfold answer_query.
  destruct (strip input) as [|c q] eqn:E; [congruence|].
  cbn [is_nil]. unfold bind at 1. unfold lift at 1. rewrite Hc.
  unfold bind at 1.
  destruct (wiki_search_first_title (c :: q) st) as [[title|e] st1]; [|reflexivity].
  destruct (negb (truthy title)); [reflexivity|].
  unfold bind at 1.
  destruct (wiki_get_summary title st1) as [[summary|e] st2]; [|reflexivity].
  destruct (truthy summary).
  - unfold bind at 1. unfold lift at 1.
    destruct (short_sentences_value summary 2) as [short|e];
      [|now destruct title].
    destruct title; try reflexivity.
  - destruct title; try reflexivity.
Qed.

(** ** What the lookups do to the state *)

Lemma cache_le_refl st : cache_le st st.
Proof. intros f k v H. exact H. Qed.

Lemma cache_le_trans st1 st2 st3 :
  cache_le st1 st2 -> cache_le st2 st3 -> cache_le st1 st3.
Proof. intros H1 H2 f k v H. apply H2, H1, H. Qed.

Lemma cache_le_log ev st : cache_le st (log ev st).
Proof. intros f k v H. exact H. Qed.

Lemma cache_le_store k f v st :
  cached f k st = None -> cache_le st (store k f v st).
Proof.
  intros Hn f' k' v' H. rewrite cached_store.
  case_decide as Hd; [|assumption]. destruct Hd as [-> ->]. congruence.
Qed.

Lemma cache_ok_log ev st : cache_ok st -> cache_ok (log ev st).
Proof. intros H. exact H. Qed.

Lemma is_nil_false {A} (l : list A) : is_nil l = false -> l <> [].
Proof. now destruct l. Qed.

Lemma search_spec query st r st' :
  wiki_search_first_title query st = (r, st') ->
  (exists title, r = Ok title
     /\ (truthy title = true -> cached FTitle (strip query) st' = Some title))
  /\ cache_le st st'
  /\ (cache_ok st -> cache_ok st')
  /\ exists evs, trace st' = trace st ++ evs
       /\ Forall (search_event (strip query)) evs
       /\ (count is_search evs <= 1)%nat
       /\ count is_summary evs = 0%nat.
Proof.
  rewrite wiki_search_first_title_eq. cbv zeta.
  destruct (is_nil (strip query)) eqn:En.
  { intros [= <- <-]. split; [exists JNull; split; [reflexivity|discriminate]|].
    split; [apply cache_le_refl|]. split; [auto|].
    exists []. rewrite app_nil_r. repeat split; auto. }
  apply is_nil_false in En.
  set (q := strip query) in *.
  assert (Hp : search_event q (CacheProbe (JStr q) FTitle)) by now left.
  assert (Hg : search_event q (HttpGet (SearchGet q))) by now right.
  destruct (cached FTitle q st) as [v|] eqn:Ec.
  { intros [= <- <-]. split; [exists v; split; [reflexivity|intros _; exact Ec]|].
    split; [apply cache_le_log|]. split; [auto|].
    exists [CacheProbe (JStr q) FTitle]. repeat split; auto. }
  destruct (title_of_reply _) as [title|].
  - intros [= <- <-]. split.
    { exists title. split; [reflexivity|]. intros _. rewrite cached_store.
      now rewrite decide_True. }
    split.
    { eapply cache_le_trans; [|apply cache_le_store; exact Ec].
      intros f k v H. exact H. }
    split.
    { intros [Ht Hs]. split.
      - intros k v. rewrite cached_store. case_decide as Hd.
        + destruct Hd as [<- _]. intros _. split; [exact En|apply strip_idem].
        + apply Ht.
      - intros k v. rewrite cached_store. case_decide as Hd.
        + destruct Hd as [_ Hd]. discriminate.
        + apply Hs. }
    exists [CacheProbe (JStr q) FTitle; HttpGet (SearchGet q)].
    simpl. rewrite <- app_assoc. repeat split; auto.
  - intros [= <- <-]. split; [exists JNull; split; [reflexivity|discriminate]|].
    split; [intros f k v H; exact H|]. split; [auto|].
    exists [CacheProbe (JStr q) FTitle; HttpGet (SearchGet q)].
    simpl. rewrite <- app_assoc. repeat split; auto.
Qed.

Lemma extract_truthy r summary : extract_of_reply r = Some summary -> truthy summary = true.
Proof.
  unfold extract_of_reply. destruct r as [|status [data|]]; try discriminate.
  destruct (in_range 400 599 status); [discriminate|].
  destruct (dict_get data (py "extract")) as [s|]; [|discriminate].
  destruct (truthy s) eqn:E; [|discriminate]. now intros [= <-].
Qed.

Lemma summary_spec title st r st' :
  wiki_get_summary title st = (r, st') ->
  cache_le st st'
  /\ (cache_ok st -> cache_ok st')
  /\ (forall summary, r = Ok summary -> truthy summary = true ->
        exists t, title = JStr t /\ cached FSummary t st' = Some summary)
  /\ (forall summary, cache_ok st -> r = Ok summary -> truthy title = true ->
        exists t safe, title = JStr t /\ quote t [] = Ok safe)
  /\ exists evs, trace st' = trace st ++ evs
       /\ (count is_summary evs <= 1)%nat
       /\ count is_search evs = 0%nat.
Proof.
  destruct (match title with JStr _ => true | _ => false end) eqn:Estr.
  2:{ assert (Hns : forall t, title <> JStr t) by (intros t ->; discriminate).
      rewrite wiki_get_summary_not_str by assumption.
      destruct (negb (truthy title)) eqn:Et.
      - intros [= <- <-]. split; [apply cache_le_refl|]. split; [auto|].
        split; [intros ? [= <-]; discriminate|].
        split; [intros ? _ _ Htr; rewrite Htr in Et; discriminate|].
        exists []. rewrite app_nil_r. repeat split; auto.
      - assert (Hr : exists st0 evs, (st0 = st \/ st0 = log (CacheProbe title FSummary) st)
                  /\ trace st0 = trace st ++ evs
                  /\ (count is_summary evs <= 1)%nat /\ count is_search evs = 0%nat
                  /\ match title with
                     | JArr _ | JObj _ => (Raise TypeError, st)
                     | _ => (@Raise json TypeError, log (CacheProbe title FSummary) st)
                     end = (Raise TypeError, st0)).
        { destruct title; try discriminate;
            first [ exists st, []; rewrite app_nil_r; repeat split; solve [auto]
                  | eexists _, [_]; repeat split; solve [auto] ]. }
        destruct Hr as (st0 & evs & Hst0 & Htr & Hc1 & Hc2 & ->).
        intros [= <- <-].
        split; [destruct Hst0 as [->| ->]; [apply cache_le_refl|apply cache_le_log]|].
        split; [destruct Hst0 as [->| ->]; auto|].
        split; [discriminate|]. split; [discriminate|].
        exists evs. auto. }
  destruct title as [| b | z | fl | t | l | kv]; try discriminate. clear Estr.
  rewrite wiki_get_summary_eq. cbv zeta.
  destruct (is_nil t) eqn:En.
  { intros [= <- <-]. split; [apply cache_le_refl|]. split; [auto|].
    split; [intros ? [= <-]; discriminate|].
    split; [intros ? _ _; destruct t; discriminate|].
    exists []. rewrite app_nil_r. repeat split; auto. }
  apply is_nil_false in En.
  destruct (cached FSummary t st) as [v|] eqn:Ec.
  { intros [= <- <-]. split; [apply cache_le_log|]. split; [auto|].
    split; [intros ? [= <-] _; eauto|].
    split.
    { intros ? [_ Hs] _ _. destruct (Hs t v Ec) as (_ & _ & safe & Hq). eauto. }
    eexists [_]. repeat split; auto. }
  destruct (quote t []) as [safe|e] eqn:Eq.
  2:{ intros [= <- <-]. split; [apply cache_le_log|]. split; [auto|].
      split; [discriminate|]. split; [discriminate|].
      eexists [_]. repeat split; auto. }
  destruct (extract_of_reply _) as [summary|] eqn:Ex.
  - intros [= <- <-]. split.
    { eapply cache_le_trans; [|apply cache_le_store; exact Ec].
      intros f k v H. exact H. }
    split.
    { intros [Ht Hs]. split.
      - intros k v. rewrite cached_store. case_decide as Hd.
        + destruct Hd as [_ Hd]. discriminate.
        + apply Ht.
      - intros k v. rewrite cached_store. case_decide as Hd.
        + destruct Hd as [<- _]. intros [= <-].
          split; [exact En|]. split; [eapply extract_truthy; eauto|eauto].
        + apply Hs. }
    split.
    { intros ? [= <-] _. exists t. split; [reflexivity|].
      rewrite cached_store. now rewrite decide_True. }
    split; [eauto|].
    eexists [_; _]. simpl. rewrite <- app_assoc. repeat split; auto.
  - intros [= <- <-]. split; [intros f k v H; exact H|]. split; [auto|].
    split; [intros ? [= <-]; discriminate|]. split; [eauto|].
    eexists [_; _]. simpl. rewrite <- app_assoc. repeat split; auto.
Qed.

Lemma check_small_talk_cases text :
  check_small_talk text = Ok None
  \/ exists c r, check_small_talk text = Ok (Some (c :: r)).
Proof.
  unfold check_small_talk.
  assert (H : forall info, In info SMALL_TALK ->
            exists c r rest, replies info = (c :: r) :: rest)
    by (intros info Hin; now apply small_talk_rule).
  induction SMALL_TALK as [|info rules IH]; simpl; [now left|].
  destruct (re_search (pattern info) text).
  - destruct (H info) as (c & r & rest & ->); [now left|]. right. eauto.
  - apply IH. intros r Hr. apply H. now right.
Qed.

Lemma answer_query_cases input st :
  (strip input = [] /\ answer_query input st = (Ok MSG_EMPTY, st))
  \/ (exists c r, check_small_talk (strip input) = Ok (Some (c :: r))
        /\ answer_query input st = (Ok (c :: r), st))
  \/ (strip input <> [] /\ check_small_talk (strip input) = Ok None).
Proof.
  destruct (strip input) as [|c q] eqn:E.
  - left. split; [reflexivity|]. unfold answer_query. now rewrite E.
  - right. rewrite <- E.
    destruct (check_small_talk_cases (strip input)) as [Hn|(c' & r & Hs)].
    + right. split; [congruence|assumption].
    + left. exists c', r. split; [assumption|].
      apply answer_query_reply; [congruence|discriminate|assumption].
Qed.

(** The state [answer_query] leaves: the one it found, the one the title
    lookup left, or the one the summary lookup left after it. *)
Lemma answer_query_state input st :
  let q := strip input in
  snd (answer_query input st) = st
  \/ snd (answer_query input st) = snd (wiki_search_first_title q st)
  \/ exists title,
       snd (answer_query input st)
       = snd (wiki_get_summary title (snd (wiki_search_first_title q st))).
Proof.
  cbv zeta.
  destruct (answer_query_cases input st) as [[_ ->]|[(c & r & _ & ->)|[Hq Hc]]];
    [now left|now left|].
  rewrite (answer_query_lookup input st Hq Hc).
  destruct (wiki_search_first_title (strip input) st) as [[title|e] st1];
    [|right; now left].
  destruct (negb (truthy title)); [right; now left|].
  right. right. exists title. simpl.
  destruct (wiki_get_summary title st1) as [[summary|e] st2]; [|reflexivity].
  destruct title; destruct (truthy summary);
    try destruct (short_sentences_value summary 2);
    try destruct (wiki_link s); reflexivity.
Qed.

Lemma run_op_spec o st :
  cache_le st (run_op o st) /\ (cache_ok st -> cache_ok (run_op o st)).
Proof.
  assert (Hs : forall q, cache_le st (snd (wiki_search_first_title q st))
                 /\ (cache_ok st -> cache_ok (snd (wiki_search_first_title q st)))).
  { intros q. destruct (wiki_search_first_title q st) as [r st'] eqn:E.
    destruct (search_spec _ _ _ _ E) as (_ & H1 & H2 & _). auto. }
  assert (Hm : forall t s0, cache_le s0 (snd (wiki_get_summary t s0))
                 /\ (cache_ok s0 -> cache_ok (snd (wiki_get_summary t s0)))).
  { intros t s0. destruct (wiki_get_summary t s0) as [r st'] eqn:E.
    destruct (summary_spec _ _ _ _ E) as (H1 & H2 & _). auto. }
  destruct o as [u|q|t]; simpl; [|apply Hs|apply Hm].
  destruct (answer_query_state u st) as [->|[->|[title ->]]].
  - split; [apply cache_le_refl|auto].
  - apply Hs.
  - destruct (Hs (strip u)) as [H1 H2].
    destruct (Hm title (snd (wiki_search_first_title (strip u) st))) as [H3 H4].
    split; [eapply cache_le_trans; eauto|auto].
Qed.

Lemma run_ops_spec ops : forall st,
  cache_le st (run_ops ops st) /\ (cache_ok st -> cache_ok (run_ops ops st)).
Proof.
  induction ops as [|o ops IH]; intros st; simpl.
  - split; [apply cache_le_refl|auto].
  - destruct (run_op_spec o st) as [H1 H2].
    destruct (IH (run_op o st)) as [H3 H4].
    split; [eapply cache_le_trans; eauto|auto].
Qed.

Lemma initial_ok : cache_ok initial.
Proof. split; intros k v H; discriminate. Qed.

Lemma reachable_ok st : reachable st -> cache_ok st.
Proof.
  intros [ops ->]. apply run_ops_spec. apply initial_ok.
Qed.

Lemma reachable_run_ops ops st : reachable st -> reachable (run_ops ops st).
Proof.
  intros [ops0 ->]. exists (ops0 ++ ops). unfold run_ops. now rewrite fold_left_app.
Qed.

(** C2.  Memoization.  A value cached in a reachable state stays cached,
    unchanged, through any further sequence of calls; after it, looking the
    key up again returns that value, and the only thing that happens is one
    cache probe: no request is issued and the cache is not written. *)
Theorem cache_memoization st f k v ops :
  reachable st -> cached f k st = Some v ->
  let st' := run_ops ops st in
  cached f k st' = Some v
  /\ match f with
     | FTitle =>
         forall query, strip query = k ->
           wiki_search_first_title query st'
           = (Ok v, log (CacheProbe (JStr k) FTitle) st')
     | FSummary =>
         wiki_get_summary (JStr k) st'
         = (Ok v, log (CacheProbe (JStr k) FSummary) st')
     end.
Proof.
  intros Hr Hc st'.
  assert (Hc' : cached f k st' = Some v) by (now apply run_ops_spec).
  pose proof (reachable_ok st' (reachable_run_ops ops st Hr)) as [Ht Hs].
  split; [assumption|].
  destruct f.
  - intros query Hq. rewrite wiki_search_first_title_eq. cbv zeta.
    rewrite Hq. destruct (Ht k v Hc') as [Hk _].
    destruct k; [congruence|]. simpl is_nil. cbv iota. now rewrite Hc'.
  - rewrite wiki_get_summary_eq. cbv zeta.
    destruct (Hs k v Hc') as [Hk _].
    destruct k; [congruence|]. simpl is_nil. cbv iota. now rewrite Hc'.
Qed.

(** ** [answer_query] past the small talk *)

Lemma answer_query_unresolved input st title st1 :
  strip input <> [] -> check_small_talk (strip input) = Ok None ->
  wiki_search_first_title (strip input) st = (Ok title, st1) ->
  truthy title = false ->
  answer_query input st = (Ok MSG_NO_MATCH, st1).
Proof.
  intros Hq Hc Hs Ht. rewrite (answer_query_lookup input st Hq Hc), Hs.
  now rewrite Ht.
Qed.

Lemma answer_query_resolved input st title st1 r st2 :
  strip input <> [] -> check_small_talk (strip input) = Ok None ->
  wiki_search_first_title (strip input) st = (Ok title, st1) ->
  truthy title = true ->
  wiki_get_summary title st1 = (r, st2) ->
  answer_query input st
  = (match r with Ok summary => finish title summary | Raise e => Raise e end, st2).
Proof.
  intros Hq Hc Hs Ht Hm. rewrite (answer_query_lookup input st Hq Hc), Hs, Ht, Hm.
  simpl negb. cbv iota. destruct r as [summary|e]; [|reflexivity].
  unfold finish. destruct title; destruct (truthy summary);
    try destruct (short_sentences_value summary 2);
    try destruct (wiki_link s); reflexivity.
Qed.

Lemma utf8_char_replace c :
  utf8_char c <> None -> utf8_char (if c =? 0x20 then 0x5F else c) <> None.
Proof. destruct (c =? 0x20); [discriminate|auto]. Qed.

Lemma quote_replace t safe :
  quote t [] = Ok safe -> exists q, quote (replace 0x20 0x5F t) [0x2F] = Ok q.
Proof.
  unfold quote. intros H.
  assert (He : utf8_encode t <> None) by (destruct (utf8_encode t); congruence).
  clear H.
  assert (Hr : utf8_encode (replace 0x20 0x5F t) <> None).
  { induction t as [|c t IH]; simpl in *; [discriminate|].
    destruct (utf8_char c) eqn:Ec; [|congruence].
    destruct (utf8_encode t) eqn:Et; [|congruence].
    pose proof (utf8_char_replace c) as Hc. rewrite Ec in Hc.
    destruct (utf8_char (if c =? 32 then 95 else c)); [|now destruct Hc].
    destruct (utf8_encode (replace 32 95 t)); [discriminate|].
    now destruct IH. }
  destruct (utf8_encode (replace 0x20 0x5F t)); [eauto|congruence].
Qed.

Lemma wiki_link_ok t safe :
  quote t [] = Ok safe ->
  exists q, quote (replace 0x20 0x5F t) [0x2F] = Ok q
            /\ wiki_link t = Ok (py "https://en.wikipedia.org/wiki/" ++ q).
Proof.
  intros H. destruct (quote_replace t safe H) as [q Hq].
  exists q. split; [assumption|]. unfold wiki_link. now rewrite Hq.
Qed.

(** C5.  When the title lookup comes back with no title, the answer is the
    fixed no-match message and the state is the one the title lookup left:
    the events of the call are probes of the title field and search
    requests for the stripped input, so no summary request was made and the
    summary field of the cache was not looked at. *)
Theorem answer_query_no_title input st title st1 :
  strip input <> [] -> check_small_talk (strip input) = Ok None ->
  wiki_search_first_title (strip input) st = (Ok title, st1) ->
  truthy title = false ->
  answer_query input st = (Ok MSG_NO_MATCH, st1)
  /\ exists evs, trace st1 = trace st ++ evs
       /\ Forall (search_event (strip input)) evs
       /\ count is_summary evs = 0%nat.
Proof.
  intros Hq Hc Hs Ht. split; [now apply answer_query_unresolved with title|].
  destruct (search_spec _ _ _ _ Hs) as (_ & _ & _ & evs & Htr & Hev & _ & Hsum).
  rewrite strip_idem in Hev. eauto.
Qed.

(** C3, as amended.  When a call resolved a title and obtained a summary,
    a second call with the same input returns the same result and issues no
    request: it only probes the cache twice.  Over both calls at most one
    search request and at most one summary request are made. *)
Theorem answer_query_twice input st title st1 summary st2 :
  strip input <> [] -> check_small_talk (strip input) = Ok None ->
  wiki_search_first_title (strip input) st = (Ok title, st1) ->
  truthy title = true ->
  wiki_get_summary title st1 = (Ok summary, st2) ->
  truthy summary = true ->
  exists r st3,
    answer_query input st = (r, st2)
    /\ answer_query input st2 = (r, st3)
    /\ cache st3 = cache st2
    /\ count is_request (trace st3) = count is_request (trace st2)
    /\ (count is_search (trace st3) <= count is_search (trace st) + 1)%nat
    /\ (count is_summary (trace st3) <= count is_summary (trace st) + 1)%nat.
Proof.
  intros Hq Hc Hs Ht Hm Hsum.
  destruct (search_spec _ _ _ _ Hs)
    as ((title' & [= <-] & Hct) & _ & _ & evs1 & Htr1 & _ & Hn1 & Hn1').
  destruct (summary_spec _ _ _ _ Hm)
    as (Hle & _ & Hcs & _ & evs2 & Htr2 & Hn2 & Hn2').
  destruct (Hcs summary eq_refl Hsum) as (t & -> & Hsummary).
  rewrite strip_idem in Hct. specialize (Hct Ht). apply Hle in Hct.
  set (p1 := CacheProbe (JStr (strip input)) FTitle).
  set (p2 := CacheProbe (JStr t) FSummary).
  assert (Hs2 : wiki_search_first_title (strip input) st2 = (Ok (JStr t), log p1 st2)).
  { rewrite wiki_search_first_title_eq. cbv zeta. rewrite strip_idem.
    destruct (strip input); [congruence|]. simpl is_nil. cbv iota. now rewrite Hct. }
  assert (Hm2 : wiki_get_summary (JStr t) (log p1 st2) = (Ok summary, log p2 (log p1 st2))).
  { rewrite wiki_get_summary_eq. cbv zeta.
    destruct t; [discriminate|]. simpl is_nil. cbv iota.
    rewrite cached_log. now rewrite Hsummary. }
  exists (finish (JStr t) summary), (log p2 (log p1 st2)).
  split; [exact (answer_query_resolved input st _ st1 _ st2 Hq Hc Hs Ht Hm)|].
  split; [exact (answer_query_resolved input st2 _ _ _ _ Hq Hc Hs2 Ht Hm2)|].
  split; [reflexivity|].
  subst p1 p2. simpl trace. rewrite !count_probe by reflexivity.
  rewrite Htr2, Htr1, !count_app. repeat split; lia.
Qed.

(** ** The link *)

Lemma hex_digit_not_space d : hex_digit d <> 0x20.
Proof. unfold hex_digit. destruct (d <? 10); lia. Qed.

Lemma quote_no_space s q : quote s [0x2F] = Ok q -> ~ In 0x20 q.
Proof.
  unfold quote. destruct (utf8_encode s) as [bs|]; [|discriminate].
  intros [= <-] Hin. apply in_flat_map in Hin as (b & _ & Hb).
  unfold quote_byte in Hb.
  destruct (always_safe b || existsb (N.eqb b) [0x2F]) eqn:E.
  - destruct Hb as [->|[]]. discriminate.
  - destruct Hb as [Hb|[Hb|[Hb|[]]]]; [discriminate| |].
    + now apply hex_digit_not_space in Hb.
    + now apply hex_digit_not_space in Hb.
Qed.

Lemma link_no_space q :
  ~ In 0x20 q -> ~ In 0x20 (py "https://en.wikipedia.org/wiki/" ++ q).
Proof.
  intros Hq Hin. apply in_app_or in Hin as [Hin|Hin]; [|auto].
  vm_compute in Hin. intuition discriminate.
Qed.

(** ** Sentences *)

Lemma push_prepend c a parts : push c (prepend a parts) = prepend (c :: a) parts.
Proof. now destruct parts. Qed.

Lemma re_split_not_nil s : forall skip prev, re_split skip prev s <> [].
Proof.
  induction s as [|c s IH]; intros skip prev; simpl; [discriminate|].
  destruct (isspace c && skip); [apply IH|].
  destruct (isspace c && ends_sentence prev); [discriminate|].
  specialize (IH false (Some c)). now destruct (re_split false (Some c) s).
Qed.

Lemma re_split_run a : forall prev X,
  no_boundary prev a = true ->
  re_split false prev (a ++ X) = prepend a (re_split false (last_or prev a) X).
Proof.
  induction a as [|c a IH]; intros prev X H.
  - simpl. unfold last_or. simpl.
    pose proof (re_split_not_nil X false prev).
    now destruct (re_split false prev X).
  - simpl in *. apply andb_true_iff in H as [Hc Ha].
    apply negb_true_iff in Hc. rewrite andb_false_r, Hc.
    rewrite (IH _ _ Ha), last_or_cons. apply push_prepend.
Qed.

Lemma re_split_sep ws : forall p Y,
  blank ws -> re_split true p (ws ++ Y) = re_split true (last_or p ws) Y.
Proof.
  induction ws as [|w ws IH]; intros p Y H; [reflexivity|].
  inversion H as [|? ? Hw Hws]; subst. simpl. rewrite Hw. simpl.
  rewrite last_or_cons. now apply IH.
Qed.

Lemma re_split_resume c Y p p' :
  isspace c = false -> re_split true p (c :: Y) = re_split false p' (c :: Y).
Proof. intros H. simpl. now rewrite H. Qed.

Lemma re_split_sentence a ws Y :
  sentence a -> blank ws -> ws <> [] ->
  (exists c r, Y = c :: r /\ isspace c = false) ->
  re_split false None (a ++ ws ++ Y) = a :: re_split false None Y.
Proof.
  intros (_ & Hend & Hnb) Hws Hne (c & r & -> & Hc).
  rewrite (re_split_run a None _ Hnb).
  assert (Hl : last_or None a = last a) by (unfold last_or; now destruct (last a)).
  rewrite Hl. destruct ws as [|w ws]; [congruence|].
  inversion Hws as [|? ? Hw Hws']; subst.
  simpl app. cbn [re_split]. rewrite Hw, Hend. simpl.
  rewrite (re_split_sep ws _ _ Hws').
  rewrite (re_split_resume c r _ None Hc).
  now rewrite app_nil_r.
Qed.

Lemma strip_trimmed s : trimmed s -> strip s = s.
Proof.
  intros [(c & r & -> & Hc) (r' & c' & Heq & Hc')].
  unfold strip. simpl lstrip. rewrite Hc. unfold rstrip.
  rewrite Heq, rev_app_distr. simpl. rewrite Hc'.
  now rewrite <- (rev_involutive r') at 2.
Qed.

Lemma ends_sentence_not_space c : ends_sentence (Some c) = true -> isspace c = false.
Proof.
  simpl. rewrite !orb_true_iff, !N.eqb_eq. intros [[->| ->]| ->]; reflexivity.
Qed.

Lemma sentence_last a :
  sentence a -> exists r c, a = r ++ [c] /\ isspace c = false.
Proof.
  intros (_ & Hend & _). destruct (last a) as [c|] eqn:El; [|discriminate].
  apply last_Some in El as [r ->]. exists r, c. split; [reflexivity|].
  now apply ends_sentence_not_space.
Qed.

(** ** When [answer_query] returns *)

Lemma search_values query st r st' :
  well_typed -> values_ok st ->
  wiki_search_first_title query st = (r, st') ->
  values_ok st' /\ exists title, r = Ok title /\ title_ok title.
Proof.
  intros [Hwt _] [Ht Hs]. rewrite wiki_search_first_title_eq. cbv zeta.
  destruct (is_nil (strip query)).
  { intros [= <- <-]. split; [now split|]. exists JNull. split; [reflexivity|now left]. }
  destruct (cached FTitle (strip query) st) as [v|] eqn:Ec.
  { intros [= <- <-]. split; [now split|]. exists v. split; [reflexivity|eauto]. }
  destruct (title_of_reply _) as [title|] eqn:Er.
  - intros [= <- <-]. pose proof (Hwt _ _ _ Er) as Hok. split.
    + split; intros k v; rewrite cached_store; case_decide as Hd.
      * intros [= <-]. exact Hok.
      * apply Ht.
      * destruct Hd as [_ Hd]. discriminate.
      * apply Hs.
    + exists title. split; [reflexivity|exact Hok].
  - intros [= <- <-]. split; [now split|]. exists JNull. split; [reflexivity|now left].
Qed.

Lemma summary_values_state title st r st' :
  well_typed -> values_ok st ->
  wiki_get_summary title st = (r, st') -> values_ok st'.
Proof.
  intros [_ Hwt] [Ht Hs].
  destruct (match title with JStr _ => true | _ => false end) eqn:Estr.
  2:{ rewrite wiki_get_summary_not_str by (intros x ->; discriminate).
      destruct (negb (truthy title)); [intros [= <- <-]; now split|].
      destruct title; try discriminate; intros [= <- <-]; now split. }
  destruct title as [| | | | s | |]; try discriminate.
  rewrite wiki_get_summary_eq. cbv zeta.
  destruct (is_nil s); [intros [= <- <-]; now split|].
  destruct (cached FSummary s st); [intros [= <- <-]; now split|].
  destruct (quote s []); [|intros [= <- <-]; now split].
  destruct (extract_of_reply _) as [summary|] eqn:Er; [|intros [= <- <-]; now split].
  intros [= <- <-]. pose proof (Hwt _ _ _ Er) as Hok.
  split; intros k v; rewrite cached_store; case_decide as Hd.
  - destruct Hd as [_ Hd]. discriminate.
  - apply Ht.
  - intros [= <-]. exact Hok.
  - apply Hs.
Qed.

Lemma summary_values title st r st' :
  well_typed -> values_ok st -> title_ok title -> truthy title = true ->
  wiki_get_summary title st = (r, st') ->
  exists summary, r = Ok summary /\ (truthy summary = false \/ summary_ok summary).
Proof.
  intros [_ Hwt] [Ht Hs] [Hf|(t & safe & -> & Hq)] Htr; [congruence|].
  rewrite wiki_get_summary_eq. cbv zeta.
  destruct t as [|c t]; [discriminate|]. simpl is_nil. cbv iota.
  destruct (cached FSummary (c :: t) st) as [v|] eqn:Ec.
  { intros [= <- <-]. exists v. split; [reflexivity|eauto]. }
  rewrite Hq.
  destruct (extract_of_reply _) as [summary|] eqn:Er.
  - intros [= <- <-]. exists summary. split; [reflexivity|right; eauto].
  - intros [= <- <-]. exists JNull. split; [reflexivity|now left].
Qed.

Lemma answer_query_values input st :
  well_typed -> values_ok st ->
  values_ok (snd (answer_query input st))
  /\ exists answer, fst (answer_query input st) = Ok answer.
Proof.
  intros Hwt Hv.
  destruct (answer_query_cases input st) as [[_ ->]|[(c & r & _ & ->)|[Hq Hc]]];
    [split; eauto|split; eauto|].
  destruct (wiki_search_first_title (strip input) st) as [r1 st1] eqn:Es.
  destruct (search_values _ _ _ _ Hwt Hv Es) as (Hv1 & title & -> & Hok).
  destruct (truthy title) eqn:Ht.
  2:{ rewrite (answer_query_unresolved input st title st1 Hq Hc Es Ht). split; eauto. }
  destruct (wiki_get_summary title st1) as [r2 st2] eqn:Em.
  pose proof (summary_values_state _ _ _ _ Hwt Hv1 Em) as Hv2.
  destruct (summary_values _ _ _ _ Hwt Hv1 Hok Ht Em) as (summary & -> & Hsum).
  rewrite (answer_query_resolved input st title st1 _ st2 Hq Hc Es Ht Em).
  split; [assumption|]. simpl.
  destruct Hok as [Hf|(t & safe & -> & Hsafe)]; [congruence|].
  destruct (wiki_link_ok t safe Hsafe) as (q & _ & Hlink).
  unfold finish. rewrite Hlink.
  destruct Hsum as [-> |[s ->]]; [eauto|].
  destruct (truthy (JStr s)); simpl; eauto.
Qed.

Lemma run_ops_values ops : forall st,
  well_typed -> values_ok st -> values_ok (run_ops ops st).
Proof.
  induction ops as [|o ops IH]; intros st Hwt Hv; [exact Hv|].
  simpl. apply IH; [assumption|].
  destruct o as [u|q|t]; simpl.
  - now apply answer_query_values.
  - destruct (wiki_search_first_title q st) as [r st'] eqn:E.
    now destruct (search_values _ _ _ _ Hwt Hv E).
  - destruct (wiki_get_summary t st) as [r st'] eqn:E.
    exact (summary_values_state _ _ _ _ Hwt Hv E).
Qed.

(** X14.  With services that answer with text where text is expected,
    [answer_query] returns a string in every reachable state, whatever else
    goes wrong with the requests. *)
Lemma answer_query_returns input st :
  well_typed -> reachable st ->
  exists answer, fst (answer_query input st) = Ok answer.
Proof.
  intros Hwt [ops ->]. apply answer_query_values; [assumption|].
  apply run_ops_values; [assumption|]. split; intros k v H; discriminate.
Qed.

(** ** The loop of [main] *)

Lemma check_small_talk_reply text reply :
  check_small_talk text = Ok (Some reply) ->
  exists info rest, In info SMALL_TALK /\ replies info = reply :: rest.
Proof.
  unfold check_small_talk. induction SMALL_TALK as [|info rules IH]; simpl; [discriminate|].
  destruct (re_search (pattern info) text).
  - destruct (replies info) as [|r rest] eqn:E; [discriminate|].
    intros [= <-]. exists info, rest. auto.
  - intros H. destruct (IH H) as (i & rest & Hin & Hr). eauto.
Qed.

Lemma small_talk_not_prompt info rest :
  In info SMALL_TALK -> replies info <> MSG_EMPTY :: rest.
Proof.
  intros Hin H. apply (f_equal (fun l => head (concat (firstn 1 l)))) in H.
  repeat (destruct Hin as [<-|Hin]; [vm_compute in H; discriminate|]).
  destruct Hin.
Qed.

Lemma answer_not_prompt input st reply :
  strip input <> [] -> fst (answer_query input st) = Ok reply -> reply <> MSG_EMPTY.
Proof.
  intros Hq Ha.
  destruct (answer_query_cases input st) as [[Hn _]|[(c & r & Hc & He)|[_ Hc]]];
    [congruence| |].
  - rewrite He in Ha. simpl in Ha. injection Ha as <-.
    destruct (check_small_talk_reply _ _ Hc) as (info & rest & Hin & Hr).
    intros Heq. rewrite Heq in Hr. now apply small_talk_not_prompt in Hr.
  - destruct (wiki_search_first_title (strip input) st) as [r1 st1] eqn:Es.
    destruct (search_spec _ _ _ _ Es) as ((title & -> & _) & _).
    destruct (truthy title) eqn:Ht.
    2:{ rewrite (answer_query_unresolved input st title st1 Hq Hc Es Ht) in Ha.
        simpl in Ha. injection Ha as <-. discriminate. }
    destruct (wiki_get_summary title st1) as [r2 st2] eqn:Em.
    rewrite (answer_query_resolved input st title st1 _ st2 Hq Hc Es Ht Em) in Ha.
    simpl in Ha. destruct r2 as [summary|e]; [|discriminate].
    unfold finish in Ha.
    destruct title; destruct (truthy summary);
      try destruct (short_sentences_value summary 2);
      try destruct (wiki_link s); try discriminate;
      injection Ha as <-; discriminate.
Qed.

Lemma main_loop_ops stdout_ok elapsed_text str_lower stdin : forall n st,
  exists ops,
    snd (main_loop stdout_ok elapsed_text str_lower stdin n st) = run_ops ops st
    /\ Forall (fun o => exists u, o = Answer u /\ u <> [] /\ strip u = u) ops.
Proof.
  assert (Hnone : forall st : state,
             exists ops, st = run_ops ops st
               /\ Forall (fun o => exists u, o = Answer u /\ u <> [] /\ strip u = u) ops)
    by (intros st; exists []; split; [reflexivity|constructor]).
  induction stdin as [|k rest IH]; intros n st; cbn [main_loop].
  - destruct (negb _); [apply Hnone|]. destruct (shown _ _ _); apply Hnone.
  - destruct (negb _); [apply Hnone|].
    destruct k as [text| |]; [|apply Hnone|destruct (shown _ _ _); apply Hnone].
    cbv zeta. destruct (is_nil (strip text)) eqn:En.
    + destruct (IH n st) as (ops & Hs & Hf).
      destruct (main_loop stdout_ok elapsed_text str_lower rest n st) as [[out r] st'].
      eauto.
    + destruct (is_exit str_lower (strip text));
        [destruct (shown _ _ _); apply Hnone|].
      assert (Hu : exists u, Answer (strip text) = Answer u /\ u <> [] /\ strip u = u).
      { exists (strip text). split; [reflexivity|].
        split; [now apply is_nil_false|apply strip_idem]. }
      destruct (answer_query (strip text) st) as [[reply|e] st'] eqn:Ea.
      * destruct (shown stdout_ok elapsed_text (Reply reply n)).
        -- destruct (IH (S n) st') as (ops & Hs & Hf).
           destruct (main_loop stdout_ok elapsed_text str_lower rest (S n) st')
             as [[out r] st''].
           exists (Answer (strip text) :: ops). simpl. rewrite Ea. simpl.
           split; [assumption|now constructor].
        -- exists [Answer (strip text)]. simpl. rewrite Ea.
           split; [reflexivity|now repeat constructor].
      * exists [Answer (strip text)]. simpl. rewrite Ea.
        split; [reflexivity|now repeat constructor].
Qed.

(** X1.  A session of [main] is a sequence of [answer_query] calls, each on
    a stripped, non-empty line: the state it leaves is reachable (so the
    cache invariant and memoization hold across sessions), and whatever was
    cached before the session is still cached after it. *)
Theorem main_session stdout_ok elapsed_text str_lower stdin n st :
  reachable st ->
  let st' := snd (main_loop stdout_ok elapsed_text str_lower stdin n st) in
  (exists ops,
      st' = run_ops ops st
      /\ Forall (fun o => exists u, o = Answer u /\ u <> [] /\ strip u = u) ops)
  /\ reachable st' /\ cache_le st st'.
Proof.
  intros Hr st'.
  destruct (main_loop_ops stdout_ok elapsed_text str_lower stdin n st) as (ops & Hs & Hf).
  split; [eauto|]. subst st'. rewrite Hs.
  split; [now apply reachable_run_ops|apply run_ops_spec].
Qed.

(** X2.  [main] never shows the empty-input prompt of [answer_query]: blank
    lines are skipped before the call, so no answer it prints is that
    message. *)
Theorem main_never_prompts stdout_ok elapsed_text str_lower stdin : forall n st reply k,
  In (Reply reply k) (fst (fst (main_loop stdout_ok elapsed_text str_lower stdin n st))) ->
  reply <> MSG_EMPTY.
Proof.
  induction stdin as [|key rest IH]; intros n st reply k; cbn [main_loop].
  - destruct (negb _); [intros []|].
    destruct (shown _ _ _); simpl; intuition discriminate.
  - destruct (negb _); [intros []|].
    destruct key as [text| |];
      [|simpl; intuition discriminate
       |destruct (shown _ _ _); simpl; intuition discriminate].
    cbv zeta. destruct (is_nil (strip text)) eqn:En.
    + specialize (IH n st reply k).
      destruct (main_loop stdout_ok elapsed_text str_lower rest n st) as [[out r] st'].
      simpl in *. intros [Hin|Hin]; [discriminate|auto].
    + destruct (is_exit str_lower (strip text));
        [destruct (shown _ _ _); simpl; intuition discriminate|].
      destruct (answer_query (strip text) st) as [[a|e] st'] eqn:Ea;
        [|simpl; intuition discriminate].
      destruct (shown stdout_ok elapsed_text (Reply a n));
        [|simpl; intuition discriminate].
      specialize (IH (S n) st' reply k).
      destruct (main_loop stdout_ok elapsed_text str_lower rest (S n) st')
        as [[out r] st''].
      simpl in *. intros [Hin|[Hin|Hin]]; [discriminate| |auto].
      injection Hin as -> _.
      apply (answer_not_prompt (strip text) st).
      * rewrite strip_idem. now apply is_nil_false.
      * now rewrite Ea.
Qed.

(** X3.  After an exit word on a line of its own (in the spelling
    [str.lower] maps to it, with any whitespace around) or Ctrl-C, nothing
    more is read: the rest of the input has no effect on what is written,
    on the outcome or on the state. *)
Theorem main_loop_stops stdout_ok elapsed_text str_lower before k rest : forall n st,
  stops str_lower k ->
  main_loop stdout_ok elapsed_text str_lower (before ++ k :: rest) n st
  = main_loop stdout_ok elapsed_text str_lower (before ++ [k]) n st.
Proof.
  intros n st Hk. revert n st.
  induction before as [|key before IH]; intros n st.
  - simpl app. cbn [main_loop]. destruct (negb _); [reflexivity|].
    destruct Hk as [->|(text & -> & Hne & Hex)]; [reflexivity|].
    cbv zeta. destruct (strip text); [congruence|]. simpl is_nil. cbv iota.
    now rewrite Hex.
  - simpl app. cbn [main_loop]. destruct (negb _); [reflexivity|].
    destruct key as [text| |]; [|reflexivity|reflexivity].
    cbv zeta. destruct (is_nil (strip text)); [now rewrite IH|].
    destruct (is_exit str_lower (strip text)); [reflexivity|].
    destruct (answer_query (strip text) st) as [[a|e] st']; [|reflexivity].
    now rewrite IH.
Qed.

(** ** Whitespace around the input *)

Lemma lstrip_app_blank ws s : blank ws -> lstrip (ws ++ s) = lstrip s.
Proof. induction 1 as [|c ws Hc _ IH]; simpl; [reflexivity|]. now rewrite Hc. Qed.

Lemma blank_rev ws : blank ws -> blank (rev ws).
Proof.
  unfold blank. rewrite !Forall_forall. intros H c Hc. apply H.
  apply list_elem_of_In. apply list_elem_of_In in Hc. now apply in_rev.
Qed.

Lemma rstrip_app_blank s ws : blank ws -> rstrip (s ++ ws) = rstrip s.
Proof.
  intros H. unfold rstrip. rewrite rev_app_distr.
  now rewrite lstrip_app_blank by now apply blank_rev.
Qed.

Lemma lstrip_nil_blank s : lstrip s = [] -> blank s.
Proof.
  intros H. destruct (lstrip_decomp s) as (ws & Heq & Hws).
  rewrite H, app_nil_r in Heq. now subst.
Qed.

Lemma lstrip_app s x : lstrip s <> [] -> lstrip (s ++ x) = lstrip s ++ x.
Proof.
  induction s as [|c s IH]; simpl; [congruence|].
  destruct (isspace c); [exact IH|reflexivity].
Qed.

Lemma blank_app a b : blank a -> blank b -> blank (a ++ b).
Proof. intros Ha Hb. apply Forall_app. now split. Qed.

Lemma strip_padding ws1 s ws2 :
  blank ws1 -> blank ws2 -> strip (ws1 ++ s ++ ws2) = strip s.
Proof.
  intros H1 H2. unfold strip. rewrite lstrip_app_blank by assumption.
  destruct (lstrip s) as [|c r] eqn:E.
  - rewrite lstrip_blank; [reflexivity|].
    apply blank_app; [now apply lstrip_nil_blank|assumption].
  - rewrite lstrip_app by congruence. rewrite E. now apply rstrip_app_blank.
Qed.

(** X5.  Whitespace before and after the input is ignored altogether: the
    padded input gives the same result and leaves the same state (same cache
    key, same requests) as the input itself. *)
Theorem answer_query_padding ws1 input ws2 st :
  blank ws1 -> blank ws2 ->
  answer_query (ws1 ++ input ++ ws2) st = answer_query input st.
Proof.
  intros H1 H2. unfold answer_query. now rewrite strip_padding.
Qed.

(** ** Letter case *)

Lemma in_range_false_inv lo hi c : in_range lo hi c = false -> c < lo \/ hi < c.
Proof.
  unfold in_range. rewrite andb_false_iff, !N.leb_gt. tauto.
Qed.

Lemma ascii_lower_cases x y :
  ascii_lower x = ascii_lower y ->
  x = y
  \/ (0x41 <= x <= 0x5A /\ y = x + 32)
  \/ (0x41 <= y <= 0x5A /\ x = y + 32).
Proof.
  unfold ascii_lower.
  destruct (in_range 0x41 0x5A x) eqn:Ex; destruct (in_range 0x41 0x5A y) eqn:Ey;
    try apply in_range_true in Ex; try apply in_range_true in Ey;
    try apply in_range_false_inv in Ex; try apply in_range_false_inv in Ey;
    intros H; lia.
Qed.

Lemma tolower_upper x : 0x41 <= x <= 0x5A -> tolower x = x + 32 /\ tolower (x + 32) = x + 32.
Proof.
  intros H. unfold tolower.
  rewrite (proj2 (in_range_true 0x41 0x5A x)) by lia.
  rewrite (in_range_false 0x41 0x5A (x + 32)) by lia.
  destruct (N.eqb_spec (x + 32) 0x130); [lia|].
  destruct (N.eqb_spec (x + 32) 0x212A); [lia|]. auto.
Qed.

Lemma ci_literal_same p x y :
  ascii_lower x = ascii_lower y -> ci_literal p x = ci_literal p y.
Proof.
  intros H. destruct (ascii_lower_cases x y H) as [->|[[Hx ->]|[Hy ->]]];
    [reflexivity| |].
  - unfold ci_literal. destruct (tolower_upper x Hx) as [-> ->].
    destruct (N.eqb_spec x 0x131); [lia|]. destruct (N.eqb_spec (x + 32) 0x131); [lia|].
    destruct (N.eqb_spec x 0x17F); [lia|]. destruct (N.eqb_spec (x + 32) 0x17F); [lia|].
    reflexivity.
  - unfold ci_literal. destruct (tolower_upper y Hy) as [-> ->].
    destruct (N.eqb_spec y 0x131); [lia|]. destruct (N.eqb_spec (y + 32) 0x131); [lia|].
    destruct (N.eqb_spec y 0x17F); [lia|]. destruct (N.eqb_spec (y + 32) 0x17F); [lia|].
    reflexivity.
Qed.

Lemma is_word_upper x : 0x41 <= x <= 0x5A -> is_word x = true /\ is_word (x + 32) = true.
Proof.
  intros H. unfold is_word, is_ascii_alnum.
  destruct (N.ltb_spec x 0x80); [|lia]. destruct (N.ltb_spec (x + 32) 0x80); [|lia].
  rewrite (proj2 (in_range_true 0x41 0x5A x)) by lia.
  rewrite (proj2 (in_range_true 0x61 0x7A (x + 32))) by lia.
  now rewrite !orb_true_r.
Qed.

Lemma is_word_same x y : ascii_lower x = ascii_lower y -> is_word x = is_word y.
Proof.
  intros H. destruct (ascii_lower_cases x y H) as [->|[[Hx ->]|[Hy ->]]];
    [reflexivity| |].
  - now destruct (is_word_upper x Hx) as [-> ->].
  - now destruct (is_word_upper y Hy) as [-> ->].
Qed.

Lemma isspace_upper x : 0x41 <= x <= 0x5A -> isspace x = false /\ isspace (x + 32) = false.
Proof.
  intros H. split.
  - destruct (isspace x) eqn:E; [|reflexivity]. apply isspace_bounds in E. lia.
  - destruct (isspace (x + 32)) eqn:E; [|reflexivity]. apply isspace_bounds in E. lia.
Qed.

Lemma isspace_same x y : ascii_lower x = ascii_lower y -> isspace x = isspace y.
Proof.
  intros H. destruct (ascii_lower_cases x y H) as [->|[[Hx ->]|[Hy ->]]];
    [reflexivity| |].
  - now destruct (isspace_upper x Hx) as [-> ->].
  - now destruct (isspace_upper y Hy) as [-> ->].
Qed.

Lemma opt_word_same p q : opt_ci p q -> opt_word p = opt_word q.
Proof.
  destruct p, q; simpl; try tauto. apply is_word_same.
Qed.

Lemma head_same a b : ci_same a b -> opt_ci (head a) (head b).
Proof. now destruct 1. Qed.

Lemma eat_same tok : forall p q a b,
  opt_ci p q -> ci_same a b ->
  match eat tok p a, eat tok q b with
  | Some (p', a'), Some (q', b') => opt_ci p' q' /\ ci_same a' b'
  | None, None => True
  | _, _ => False
  end.
Proof.
  induction tok as [|c tok IH]; intros p q a b Hp Hab; simpl; [auto|].
  destruct Hab as [|x y a b Hxy Hab]; [exact I|].
  rewrite (ci_literal_same c x y Hxy).
  destruct (ci_literal c y); [|exact I]. now apply IH.
Qed.

Lemma match_items_same its : forall p q a b,
  opt_ci p q -> ci_same a b -> match_items its p a = match_items its q b.
Proof.
  induction its as [|it its IH]; intros p q a b Hp Hab; [reflexivity|].
  destruct it as [|alts]; simpl.
  - unfold word_boundary.
    rewrite (opt_word_same p q Hp), (opt_word_same _ _ (head_same a b Hab)).
    f_equal. now apply IH.
  - apply existsb_ext_in. intros tok _.
    pose proof (eat_same tok p q a b Hp Hab) as H.
    destruct (eat tok p a) as [[p' a']|], (eat tok q b) as [[q' b']|];
      try tauto. destruct H. now apply IH.
Qed.

Lemma search_from_same re : forall a b p q,
  opt_ci p q -> ci_same a b -> search_from re p a = search_from re q b.
Proof.
  intros a b p q Hp Hab. revert p q Hp.
  induction Hab as [|x y a b Hxy Hab IH]; intros p q Hp; simpl.
  - f_equal. unfold match_here. apply existsb_ext_in. intros its _.
    apply match_items_same; [assumption|constructor].
  - f_equal.
    + unfold match_here. apply existsb_ext_in. intros its _.
      apply match_items_same; [assumption|now constructor].
    + now apply IH.
Qed.

Lemma check_rules_same rules a b :
  ci_same a b -> check_rules rules a = check_rules rules b.
Proof.
  intros Hab. induction rules as [|info rules IH]; simpl; [reflexivity|].
  unfold re_search. rewrite (search_from_same (pattern info) a b None None I Hab).
  now rewrite IH.
Qed.

Lemma lstrip_same a b : ci_same a b -> ci_same (lstrip a) (lstrip b).
Proof.
  induction 1 as [|x y a b Hxy Hab IH]; simpl; [constructor|].
  rewrite (isspace_same x y Hxy). destruct (isspace y); [exact IH|now constructor].
Qed.

Lemma ci_same_rev a b : ci_same a b -> ci_same (rev a) (rev b).
Proof.
  induction 1 as [|x y a b Hxy Hab IH]; simpl; [constructor|].
  apply Forall2_app; [exact IH|now repeat constructor].
Qed.

Lemma strip_same a b : ci_same a b -> ci_same (strip a) (strip b).
Proof.
  intros H. unfold strip, rstrip.
  now apply ci_same_rev, lstrip_same, ci_same_rev, lstrip_same.
Qed.

(** X6.  Small talk does not depend on the case of the letters: two inputs
    that differ only in the case of ASCII letters are matched by the same
    rules, and when one of them gets a small-talk reply the other gets the
    same reply, with the state untouched. *)
Theorem small_talk_ignores_case a b st :
  ci_same a b ->
  check_small_talk (strip a) = check_small_talk (strip b)
  /\ forall c r,
       check_small_talk (strip a) = Ok (Some (c :: r)) ->
       answer_query a st = (Ok (c :: r), st) /\ answer_query b st = (Ok (c :: r), st).
Proof.
  intros Hab.
  assert (Heq : check_small_talk (strip a) = check_small_talk (strip b))
    by (apply check_rules_same; now apply strip_same).
  split; [assumption|]. intros c r Hc.
  assert (Hne : forall s, check_small_talk (strip s) = Ok (Some (c :: r)) -> strip s <> []).
  { intros s Hs Hn. rewrite Hn in Hs.
    assert (Hnone : check_small_talk [] = Ok None).
    { unfold check_small_talk. apply check_rules_none. intros info Hin.
      apply re_search_nil. now apply small_talk_rule. }
    congruence. }
  split.
  - apply answer_query_reply; [now apply Hne|discriminate|assumption].
  - rewrite Heq in Hc.
    apply answer_query_reply; [now apply Hne|discriminate|assumption].
Qed.

(** ** Errors of the lookups *)

(** X7.  [wiki_search_first_title] never raises, whatever the service sends
    back (no reply, an error status, a body that is not JSON, JSON of any
    shape): it returns a value, having made at most one search request and no
    summary request. *)
Theorem wiki_search_first_title_returns query st :
  exists title st' evs,
    wiki_search_first_title query st = (Ok title, st')
    /\ trace st' = trace st ++ evs
    /\ (count is_search evs <= 1)%nat
    /\ count is_summary evs = 0%nat.
Proof.
  destruct (wiki_search_first_title query st) as [r st'] eqn:E.
  destruct (search_spec _ _ _ _ E)
    as ((title & -> & _) & _ & _ & evs & Htr & _ & Hn & Hm).
  exists title, st', evs. auto.
Qed.

(** X8.  [wiki_get_summary] raises exactly when its argument is truthy and
    either is not a [str] (a [TypeError]), or is a [str] with no cached
    summary that [quote] cannot encode (the error of [quote]): line 102
    stands outside the [try]. *)
Theorem wiki_get_summary_raises title st e :
  fst (wiki_get_summary title st) = Raise e
  <-> truthy title = true
      /\ (((forall t, title <> JStr t) /\ e = TypeError)
          \/ exists t, title = JStr t /\ cached FSummary t st = None
                       /\ quote t [] = Raise e).
Proof.
  destruct (match title with JStr _ => true | _ => false end) eqn:Estr.
  - destruct title as [| | | | t | |]; try discriminate.
    rewrite wiki_get_summary_eq. cbv zeta. split.
    + destruct t as [|c t]; [discriminate|]. simpl is_nil. cbv iota.
      destruct (cached FSummary (c :: t) st) eqn:Ec; [discriminate|].
      destruct (quote (c :: t) []) as [safe|e'] eqn:Eq.
      * destruct (extract_of_reply _); discriminate.
      * simpl. intros [= <-]. split; [reflexivity|]. right. eauto.
    + intros [Ht [[Hns _]|(t' & [= <-] & Hc & Hq)]]; [now destruct (Hns t)|].
      destruct t; [discriminate|]. simpl is_nil. cbv iota. now rewrite Hc, Hq.
  - assert (Hns : forall t, title <> JStr t) by (intros t ->; discriminate).
    rewrite wiki_get_summary_not_str by assumption. split.
    + destruct (truthy title) eqn:Ht; [|discriminate]. simpl negb. cbv iota.
      intros H. split; [reflexivity|]. left. split; [assumption|].
      destruct title; simpl in H; congruence.
    + intros [Ht [[_ ->]|(t & -> & _)]]; [|discriminate].
      rewrite Ht. simpl. now destruct title.
Qed.

Lemma failed_title r : failed r -> title_of_reply r = None.
Proof.
  intros [->|(status & body & -> & [H|H])]; [reflexivity| |].
  - simpl. destruct body; now rewrite ?H.
  - subst. reflexivity.
Qed.

Lemma failed_extract r : failed r -> extract_of_reply r = None.
Proof.
  intros [->|(status & body & -> & [H|H])]; [reflexivity| |].
  - simpl. destruct body; now rewrite ?H.
  - subst. reflexivity.
Qed.

(** X9.  When the search request of a call fails (no connection or timeout,
    an error status, a body that is not JSON), [answer_query] answers with
    the no-match message; it has made that one request only and the cache is
    as it was, so nothing about the failure is remembered. *)
Theorem answer_query_search_failed input st :
  strip input <> [] -> check_small_talk (strip input) = Ok None ->
  cached FTitle (strip input) st = None ->
  failed (remote (count is_request (trace st)) (SearchGet (strip input))) ->
  answer_query input st
  = (Ok MSG_NO_MATCH,
     {| cache := cache st;
        trace := trace st ++ [CacheProbe (JStr (strip input)) FTitle;
                              HttpGet (SearchGet (strip input))] |}).
Proof.
  intros Hq Hc Hm Hf.
  apply answer_query_unresolved with JNull; try assumption; [|reflexivity].
  rewrite wiki_search_first_title_eq. cbv zeta. rewrite strip_idem.
  destruct (strip input) eqn:E; [congruence|]. simpl is_nil. cbv iota.
  rewrite Hm, (failed_title _ Hf). unfold log. simpl. now rewrite <- app_assoc.
Qed.

(** X10.  When the summary request for a title fails in one of these ways,
    [wiki_get_summary] returns [None]; it has made that one request only and
    the cache is as it was. *)
Theorem wiki_get_summary_failed t safe st :
  t <> [] -> cached FSummary t st = None -> quote t [] = Ok safe ->
  failed (remote (count is_request (trace st)) (SummaryGet (WIKI_SUMMARY_URL safe))) ->
  wiki_get_summary (JStr t) st
  = (Ok JNull,
     {| cache := cache st;
        trace := trace st ++ [CacheProbe (JStr t) FSummary;
                              HttpGet (SummaryGet (WIKI_SUMMARY_URL safe))] |}).
Proof.
  intros Ht Hm Hq Hf. rewrite wiki_get_summary_eq. cbv zeta.
  destruct t; [congruence|]. simpl is_nil. cbv iota.
  rewrite Hm, Hq, (failed_extract _ Hf). unfold log. simpl. now rewrite <- app_assoc.
Qed.

(** ** What a call of [answer_query] does and returns *)

Lemma answer_query_trace input st :
  exists evs,
    trace (snd (answer_query input st)) = trace st ++ evs
    /\ (count is_search evs <= 1)%nat
    /\ (count is_summary evs <= 1)%nat
    /\ (count is_summary evs = 1%nat -> cached FTitle (strip input) (snd (answer_query input st)) <> None).
Proof.
  assert (H0 : exists evs, trace st = trace st ++ evs
            /\ (count is_search evs <= 1)%nat /\ (count is_summary evs <= 1)%nat
            /\ (count is_summary evs = 1%nat ->
                cached FTitle (strip input) st <> None)).
  { exists []. rewrite app_nil_r. repeat split; auto; discriminate. }
  destruct (answer_query_cases input st) as [[_ ->]|[(c & r & _ & ->)|[Hq Hc]]];
    [exact H0|exact H0|].
  destruct (wiki_search_first_title (strip input) st) as [r1 st1] eqn:Es.
  destruct (search_spec _ _ _ _ Es)
    as ((title & -> & Hct) & _ & _ & evs1 & Htr1 & _ & Hn1 & Hm1).
  rewrite strip_idem in Hct.
  destruct (truthy title) eqn:Ht.
  2:{ rewrite (answer_query_unresolved input st title st1 Hq Hc Es Ht). simpl.
      exists evs1. repeat split; auto; lia. }
  destruct (wiki_get_summary title st1) as [r2 st2] eqn:Em.
  destruct (summary_spec _ _ _ _ Em) as (Hle & _ & _ & _ & evs2 & Htr2 & Hn2 & Hm2).
  rewrite (answer_query_resolved input st title st1 _ st2 Hq Hc Es Ht Em). simpl.
  exists (evs1 ++ evs2). rewrite Htr2, Htr1, <- app_assoc, !count_app.
  repeat split; try lia.
  intros _. rewrite (Hle _ _ _ (Hct eq_refl)). discriminate.
Qed.

(** X11.  One call of [answer_query] makes at most one search request and at
    most one summary request, and a summary request only when a title is
    cached for the stripped input by the end of the call. *)
Theorem answer_query_requests input st :
  exists evs,
    trace (snd (answer_query input st)) = trace st ++ evs
    /\ (count is_search evs <= 1)%nat
    /\ (count is_summary evs <= 1)%nat
    /\ (count is_summary evs = 1%nat ->
        cached FTitle (strip input) (snd (answer_query input st)) <> None).
Proof. apply answer_query_trace. Qed.

(** X12.  An answer is never the empty string. *)
Theorem answer_query_not_empty input st answer :
  fst (answer_query input st) = Ok answer -> answer <> [].
Proof.
  intros Ha.
  destruct (answer_query_cases input st) as [[_ He]|[(c & r & _ & He)|[Hq Hc]]].
  - rewrite He in Ha. injection Ha as <-. discriminate.
  - rewrite He in Ha. injection Ha as <-. discriminate.
  - destruct (wiki_search_first_title (strip input) st) as [r1 st1] eqn:Es.
    destruct (search_spec _ _ _ _ Es) as ((title & -> & _) & _).
    destruct (truthy title) eqn:Ht.
    2:{ rewrite (answer_query_unresolved input st title st1 Hq Hc Es Ht) in Ha.
        injection Ha as <-. discriminate. }
    destruct (wiki_get_summary title st1) as [r2 st2] eqn:Em.
    rewrite (answer_query_resolved input st title st1 _ st2 Hq Hc Es Ht Em) in Ha.
    simpl in Ha. destruct r2 as [summary|e]; [|discriminate].
    unfold finish in Ha.
    destruct title; destruct (truthy summary);
      try destruct (short_sentences_value summary 2);
      try destruct (wiki_link s); try discriminate;
      injection Ha as <-; discriminate.
Qed.

(** X13.  The cache invariant.  In every state the program can reach, a
    title is cached only under a non-empty key equal to its own [strip], and
    a summary is cached only if it is truthy, under a non-empty title that
    [quote] can encode. *)
Theorem cache_invariant st :
  reachable st ->
  (forall k v, cached FTitle k st = Some v -> k <> [] /\ strip k = k)
  /\ (forall k v, cached FSummary k st = Some v ->
        k <> [] /\ truthy v = true /\ exists safe, quote k [] = Ok safe).
Proof. apply reachable_ok. Qed.

(** ** The URL of the summary request *)

Lemma utf8_char_bytes c bs :
  utf8_char c = Some bs -> Forall (fun b => b < 256) bs.
Proof.
  unfold utf8_char.
  destruct (N.ltb_spec c 0x80); [intros [= <-]; repeat constructor; lia|].
  destruct (N.ltb_spec c 0x800).
  { intros [= <-]. repeat constructor.
    - pose proof (N.Div0.div_lt_upper_bound c 64 32). lia.
    - pose proof (N.mod_upper_bound c 64). lia. }
  destruct (in_range 0xD800 0xDFFF c); [discriminate|].
  destruct (N.ltb_spec c 0x10000).
  { intros [= <-]. repeat constructor.
    - pose proof (N.Div0.div_lt_upper_bound c 4096 16). lia.
    - pose proof (N.mod_upper_bound (c / 64) 64). lia.
    - pose proof (N.mod_upper_bound c 64). lia. }
  destruct (N.ltb_spec c 0x110000); [|discriminate].
  intros [= <-]. repeat constructor.
  - pose proof (N.Div0.div_lt_upper_bound c 262144 8). lia.
  - pose proof (N.mod_upper_bound (c / 4096) 64). lia.
  - pose proof (N.mod_upper_bound (c / 64) 64). lia.
  - pose proof (N.mod_upper_bound c 64). lia.
Qed.

Lemma utf8_encode_bytes s bs :
  utf8_encode s = Some bs -> Forall (fun b => b < 256) bs.
Proof.
  revert bs. induction s as [|c s IH]; simpl; intros bs.
  - intros [= <-]. constructor.
  - destruct (utf8_char c) as [b1|] eqn:Ec; [|discriminate].
    destruct (utf8_encode s) as [b2|]; [|discriminate].
    intros [= <-]. apply Forall_app. split; [now apply utf8_char_bytes with c|auto].
Qed.

Lemma hex_digit_safe d : d < 16 -> always_safe (hex_digit d) = true.
Proof.
  intros H. unfold hex_digit, always_safe, is_ascii_alnum.
  destruct (N.ltb_spec d 10).
  - rewrite (proj2 (in_range_true 0x30 0x39 (0x30 + d))) by lia. reflexivity.
  - rewrite (proj2 (in_range_true 0x41 0x5A (0x41 + (d - 10)))) by lia.
    now rewrite !orb_true_r.
Qed.

Lemma quote_byte_chars b :
  b < 256 -> Forall (fun c => url_char c = true) (quote_byte [] b).
Proof.
  intros H. unfold quote_byte. simpl existsb. rewrite orb_false_r.
  destruct (always_safe b) eqn:E.
  - repeat constructor. unfold url_char. now rewrite E.
  - repeat constructor; unfold url_char.
    + rewrite hex_digit_safe; [reflexivity|].
      pose proof (N.Div0.div_lt_upper_bound b 16 16). lia.
    + rewrite hex_digit_safe; [reflexivity|].
      pose proof (N.mod_upper_bound b 16). lia.
Qed.

Lemma quote_chars t q : quote t [] = Ok q -> Forall (fun c => url_char c = true) q.
Proof.
  unfold quote. destruct (utf8_encode t) as [bs|] eqn:E; [|discriminate].
  intros [= <-]. pose proof (utf8_encode_bytes t bs E) as Hb. clear E.
  induction Hb as [|b bs Hb _ IH]; simpl; [constructor|].
  apply Forall_app. split; [now apply quote_byte_chars|exact IH].
Qed.

(** ** More on [short_sentences] *)

(** X16.  A text with no sentence boundary in it (no whitespace right after
    [.], [?] or [!] once stripped) is returned whole, stripped, for any
    positive number of sentences. *)
Theorem short_sentences_whole text n :
  no_boundary None (strip text) = true ->
  short_sentences text (S n) = strip text.
Proof.
  intros H. unfold short_sentences.
  assert (Hparts : re_split false None (strip text) = [strip text]).
  { rewrite <- (app_nil_r (strip text)) at 1.
    rewrite (re_split_run (strip text) None [] H). simpl.
    now rewrite app_nil_r. }
  rewrite Hparts. cbn [firstn]. rewrite firstn_nil. cbn [join].
  apply strip_idem.
Qed.

Lemma join_push c parts :
  parts <> [] -> join [0x20] (push c parts) = c :: join [0x20] parts.
Proof. destruct parts as [|p [|p' ps]]; [congruence|reflexivity|reflexivity]. Qed.

Lemma join_split_length s : forall skip prev,
  (length (join [0x20%N] (re_split skip prev s)) <= length s)%nat.
Proof.
  induction s as [|c s IH]; intros skip prev; simpl; [lia|].
  destruct (isspace c && skip).
  - specialize (IH true (Some c)). lia.
  - destruct (isspace c && ends_sentence prev).
    + specialize (IH true (Some c)).
      pose proof (re_split_not_nil s true (Some c)).
      destruct (re_split true (Some c) s); [congruence|]. simpl in *. lia.
    + rewrite join_push by apply re_split_not_nil.
      specialize (IH false (Some c)). simpl. lia.
Qed.

Lemma join_firstn_length (parts : list pystr) : forall n,
  (length (join [0x20%N] (firstn n parts)) <= length (join [0x20%N] parts))%nat.
Proof.
  induction parts as [|p ps IH]; intros n; [now destruct n|].
  destruct n as [|n]; [simpl; lia|].
  specialize (IH n). simpl firstn.
  destruct ps as [|p' ps]; [destruct n; simpl; lia|].
  destruct n as [|n]; [simpl; rewrite !length_app; simpl; lia|].
  change (join [0x20] (p :: firstn (S n) (p' :: ps)))
    with (p ++ [0x20] ++ join [0x20] (firstn (S n) (p' :: ps))).
  change (join [0x20] (p :: p' :: ps)) with (p ++ [0x20] ++ join [0x20] (p' :: ps)).
  rewrite !length_app. lia.
Qed.

Lemma strip_length s : (length (strip s) <= length s)%nat.
Proof.
  destruct (strip_decomp s) as (ws1 & ws2 & Heq & _).
  rewrite Heq at 2. rewrite !length_app. lia.
Qed.

(** X17.  [short_sentences] never returns more text than it was given. *)
Theorem short_sentences_length text n :
  (length (short_sentences text n) <= length text)%nat.
Proof.
  unfold short_sentences.
  pose proof (join_split_length (strip text) false None) as H1.
  pose proof (join_firstn_length (re_split false None (strip text)) n) as H2.
  pose proof (strip_length text) as H3.
  pose proof (strip_length (join [0x20] (firstn n (re_split false None (strip text))))) as H4.
  destruct (re_split false None (strip text)); [lia|]. lia.
Qed.

(** ** The pattern of the help rule *)

(** X18.  In [\bhelp|commands\b] the [\b] belong to one alternative each:
    [help] is found wherever it begins a word, whatever follows it (as in
    "helpful"), and [commands] wherever it ends a word, whatever precedes it
    (as in "subcommands").  Unless a rule declared before matches too, the
    answer is then the help text. *)
Theorem help_matches_inside_words before w after st :
  (Forall2 (fun p c => ascii_ci p c = true) (py "help") w
   /\ opt_word (last before) = false)
  \/ (Forall2 (fun p c => ascii_ci p c = true) (py "commands") w
      /\ opt_word (head after) = false) ->
  let input := before ++ w ++ after in
  re_search (pattern help) input = true
  /\ ((forall r, In r [greeting; howare; imfine; thanks; farewell] ->
         re_search (pattern r) input = false) ->
      exists reply rest,
        replies help = reply :: rest /\ answer_query input st = (Ok reply, st)).
Proof.
  intros H input.
  assert (Hm : re_search (pattern help) input = true).
  { unfold re_search, input. apply search_from_skip.
    assert (Hl : last_or None before = last before)
      by (unfold last_or; now destruct (last before)).
    rewrite Hl. unfold match_here. apply existsb_exists.
    destruct H as [[H2 Hb]|[H2 Ha]].
    - exists [WordB; Lits [py "help"]]. split; [now left|].
      assert (Hh : opt_word (head w) = true)
        by (apply (ci_first_word (py "help") w H2); exists 0x68, (py "elp"); now split).
      assert (Hfirst : word_boundary (last before) (head (w ++ after)) = true).
      { unfold word_boundary. rewrite Hb.
        destruct w as [|c w]; [discriminate|]. simpl in *. now rewrite Hh. }
      cbn [match_items]. rewrite Hfirst. cbn [andb].
      apply (group_match (fun _ _ => true) [py "help"] (py "help") w);
        [now left|reflexivity|assumption|reflexivity].
    - exists [Lits [py "commands"]; WordB]. split; [right; now left|].
      cbn [match_items].
      apply (group_match (fun p' s' => word_boundary p' (head s') && true)
               [py "commands"] (py "commands") w);
        [now left|reflexivity|assumption|].
      unfold word_boundary. rewrite Ha.
      rewrite (ci_last_word (py "commands") w (last before) H2);
        [reflexivity|split; [discriminate|reflexivity]]. }
  split; [assumption|]. intros Hpre.
  apply (answer_query_first_match input [greeting; howare; imfine; thanks; farewell]
           help [] st); auto.
Qed.

(** X19.  A truthy title that is not a [str], once cached for a query,
    stays in the way: every later call for that query raises the
    [TypeError] again, served from the cache, with no request made and the
    cache unchanged. *)
Theorem answer_query_cached_bad_title input st title :
  strip input <> [] -> check_small_talk (strip input) = Ok None ->
  cached FTitle (strip input) st = Some title ->
  truthy title = true -> (forall t, title <> JStr t) ->
  exists st',
    answer_query input st = (Raise TypeError, st')
    /\ cache st' = cache st
    /\ count is_request (trace st') = count is_request (trace st).
Proof.
  intros Hq Hc Hcached Ht Hns.
  set (p := CacheProbe (JStr (strip input)) FTitle).
  assert (Hs : wiki_search_first_title (strip input) st = (Ok title, log p st)).
  { rewrite wiki_search_first_title_eq. cbv zeta. rewrite strip_idem.
    destruct (strip input); [congruence|]. simpl is_nil. cbv iota. now rewrite Hcached. }
  destruct (wiki_get_summary title (log p st)) as [r st2] eqn:Em.
  pose proof Em as Em'. rewrite wiki_get_summary_not_str in Em' by assumption.
  rewrite Ht in Em'. simpl negb in Em'. cbv iota in Em'.
  exists st2. rewrite (answer_query_resolved input st title _ r st2 Hq Hc Hs Ht Em).
  subst p. destruct title; try (now destruct (Hns s));
    injection Em' as <- <-; simpl trace;
    rewrite ?count_probe by reflexivity; auto.
Qed.

(** ** The link, byte by byte *)

Lemma In_existsb b l : In b l <-> existsb (N.eqb b) l = true.
Proof.
  rewrite existsb_exists. split.
  - intros H. exists b. split; [assumption|apply N.eqb_refl].
  - intros (x & Hx & Hb). apply N.eqb_eq in Hb. now subst.
Qed.

(** A property of bytes that holds of each of the 256 holds of all. *)
Lemma byte_cases (P : N -> bool) :
  forallb P (map N.of_nat (seq 0 256)) = true -> forall b, b < 256 -> P b = true.
Proof.
  intros H b Hb. rewrite forallb_forall in H. apply H.
  apply in_map_iff. exists (N.to_nat b). split; [apply N2Nat.id|].
  apply in_seq. lia.
Qed.

Lemma safe_table keep b :
  b < 256 ->
  always_safe b || existsb (N.eqb b) keep = existsb (N.eqb b) (UNRESERVED ++ keep).
Proof.
  intros Hb. rewrite existsb_app. f_equal.
  apply (byte_cases
           (fun b => Bool.eqb (always_safe b) (existsb (N.eqb b) UNRESERVED))) in Hb.
  - now apply Bool.eqb_prop in Hb.
  - vm_compute. reflexivity.
Qed.

Lemma hex_value_digit d : d < 16 -> hex_value (hex_digit d) = Some d.
Proof.
  intros H.
  assert (Hd : d < 256) by lia.
  apply (byte_cases
           (fun d => (16 <=? d)
                     || match hex_value (hex_digit d) with
                        | Some v => v =? d
                        | None => false
                        end)) in Hd; [|vm_compute; reflexivity].
  apply orb_true_iff in Hd as [Hd|Hd]; [apply N.leb_le in Hd; lia|].
  destruct (hex_value (hex_digit d)) as [v|]; [|discriminate].
  apply N.eqb_eq in Hd. now subst.
Qed.

Lemma quote_byte_encoded keep b : b < 256 -> pct_encoded keep b (quote_byte keep b).
Proof.
  intros Hb. unfold quote_byte, pct_encoded. rewrite (safe_table keep b Hb).
  destruct (existsb (N.eqb b) (UNRESERVED ++ keep)) eqn:E.
  - left. split; [now apply In_existsb|reflexivity].
  - right. split.
    { intros Hin. apply In_existsb in Hin. congruence. }
    exists (hex_digit (b / 16)), (hex_digit (b mod 16)), (b / 16), (b mod 16).
    split; [reflexivity|].
    split; [apply hex_value_digit; apply N.Div0.div_lt_upper_bound; lia|].
    split; [apply hex_value_digit; apply N.mod_lt; lia|].
    apply N.Div0.div_mod.
Qed.

Lemma replace_underscored t : Forall2 underscored t (replace 0x20 0x5F t).
Proof.
  induction t as [|c t IH]; simpl; constructor; [|exact IH].
  unfold underscored. destruct (N.eqb_spec c 0x20); [left|right]; now split.
Qed.

(** [quote] encodes the UTF-8 text byte by byte. *)
Lemma quote_spec s keep q :
  quote s keep = Ok q ->
  exists bytes parts,
    utf8_encode s = Some bytes /\ Forall2 (pct_encoded keep) bytes parts
    /\ q = concat parts.
Proof.
  unfold quote. destruct (utf8_encode s) as [bytes|] eqn:E; [|discriminate].
  intros H.
  assert (Hq : q = flat_map (quote_byte keep) bytes) by congruence. clear H.
  exists bytes, (map (quote_byte keep) bytes).
  split; [reflexivity|]. split; [|now rewrite <- flat_map_concat_map].
  pose proof (utf8_encode_bytes _ _ E) as Hb. clear E Hq.
  induction Hb as [|b bs Hb _ IH]; simpl; constructor.
  - now apply quote_byte_encoded.
  - exact IH.
Qed.

(** The link [answer_query] builds for a title is the link of that title. *)
Lemma wiki_link_spec t safe :
  quote t [] = Ok safe ->
  exists link, wiki_link t = Ok link /\ link_for t link /\ ~ In 0x20 link.
Proof.
  intros H. destruct (wiki_link_ok t safe H) as (q & Hq & Hlink).
  exists (py "https://en.wikipedia.org/wiki/" ++ q).
  split; [assumption|]. split; [|exact (link_no_space q (quote_no_space _ _ Hq))].
  destruct (quote_spec _ _ _ Hq) as (bytes & parts & Hb & Hp & ->).
  exists (replace 0x20 0x5F t), bytes, parts.
  split; [apply replace_underscored|]. now repeat split.
Qed.

(** ** The pieces [short_sentences] cuts a text into *)

Lemma re_split_piece s : no_boundary None s = true -> re_split false None s = [s].
Proof.
  intros H. rewrite <- (app_nil_r s) at 1. rewrite (re_split_run s None [] H).
  simpl. now rewrite app_nil_r.
Qed.

Lemma weave_head pairs final :
  Forall separated pairs -> trimmed final ->
  exists c r, weave pairs ++ final = c :: r /\ isspace c = false.
Proof.
  intros Hp [Hh _]. destruct Hp as [|[a ws] ps Hs _]; [exact Hh|].
  destruct Hs as (((c & r & Ha & Hc) & _) & _). simpl in Ha. subst a.
  exists c, ((r ++ ws ++ weave ps) ++ final). split; [reflexivity|assumption].
Qed.

Lemma weave_last pairs final :
  trimmed final -> exists r c, weave pairs ++ final = r ++ [c] /\ isspace c = false.
Proof.
  intros [_ (r & c & -> & Hc)]. exists (weave pairs ++ r), c.
  split; [now rewrite app_assoc|assumption].
Qed.

Lemma re_split_weave pairs final :
  Forall separated pairs -> trimmed final -> no_boundary None final = true ->
  re_split false None (weave pairs ++ final) = map fst pairs ++ [final].
Proof.
  intros Hp Hf Hn. induction Hp as [|[a ws] ps (Ha & Hb & Hne) Hps IH].
  - now apply re_split_piece.
  - cbn [weave map fst snd] in *. rewrite <- !app_assoc.
    rewrite (re_split_sentence a ws _ Ha Hb Hne) by now apply weave_head.
    now rewrite IH.
Qed.

Lemma sentence_trimmed a : sentence a -> trimmed a.
Proof. intros H. split; [apply H|now apply sentence_last]. Qed.

Lemma join_trimmed parts :
  Forall trimmed parts -> parts <> [] -> trimmed (join [0x20] parts).
Proof.
  induction 1 as [|p ps Hp Hps IH]; [congruence|]. intros _.
  destruct ps as [|p' ps]; [exact Hp|].
  change (join [0x20] (p :: p' :: ps)) with (p ++ [0x20] ++ join [0x20] (p' :: ps)).
  destruct Hp as [(c & r & -> & Hc) _].
  destruct IH as [_ (r' & c' & Hj & Hc')]; [discriminate|].
  split.
  - exists c, (r ++ [0x20] ++ join [0x20] (p' :: ps)). now split.
  - exists ((c :: r) ++ [0x20] ++ r'), c'. rewrite Hj.
    split; [now rewrite <- !app_assoc|assumption].
Qed.

Lemma pieces_trimmed pairs final :
  Forall separated pairs -> trimmed final -> Forall trimmed (map fst pairs ++ [final]).
Proof.
  intros Hp Hf. apply Forall_app. split; [|now constructor].
  induction Hp as [|[a ws] ps (Ha & _) _ IH]; simpl; constructor;
    [now apply sentence_trimmed|exact IH].
Qed.

(** What [short_sentences] returns, for any text that is not blank. *)
Lemma short_sentences_pieces ws0 pairs final ws1 m :
  blank ws0 -> blank ws1 -> Forall separated pairs ->
  trimmed final -> no_boundary None final = true ->
  short_sentences (ws0 ++ weave pairs ++ final ++ ws1) (S m)
  = join [0x20] (firstn (S m) (map fst pairs ++ [final])).
Proof.
  intros H0 H1 Hp Hf Hn. unfold short_sentences.
  assert (Hs : strip (ws0 ++ weave pairs ++ final ++ ws1) = weave pairs ++ final).
  { rewrite (app_assoc (weave pairs)). rewrite strip_padding by assumption.
    apply strip_trimmed. split; [now apply weave_head|now apply weave_last]. }
  rewrite Hs, re_split_weave by assumption.
  pose proof (pieces_trimmed pairs final Hp Hf) as Ht.
  destruct (map fst pairs ++ [final]) as [|p ps] eqn:E;
    [now destruct (map fst pairs)|].
  apply strip_trimmed, join_trimmed; [now apply Forall_take|discriminate].
Qed.

Lemma short_sentences_blank s n : blank s -> short_sentences s n = [].
Proof.
  intros H. unfold short_sentences. rewrite (strip_blank s H).
  destruct n as [|n]; [reflexivity|]. cbn [re_split firstn]. now rewrite firstn_nil.
Qed.

Lemma first_boundary s : forall prev,
  no_boundary prev s = false ->
  exists a x rest,
    s = a ++ x :: rest /\ no_boundary prev a = true
    /\ isspace x = true /\ ends_sentence (last_or prev a) = true.
Proof.
  induction s as [|c s IH]; intros prev H; simpl in H; [discriminate|].
  destruct (isspace c && ends_sentence prev) eqn:E.
  - apply andb_true_iff in E as [Ec Ep]. exists [], c, s. now repeat split.
  - simpl in H. destruct (IH _ H) as (a & x & rest & -> & Ha & Hx & He).
    exists (c :: a), x, rest. split; [reflexivity|].
    split; [simpl; now rewrite E|]. split; [assumption|]. now rewrite last_or_cons.
Qed.

Lemma blank_last l ws c :
  blank ws -> ws <> [] -> last (l ++ ws) = Some c -> isspace c = true.
Proof.
  intros Hws Hne. rewrite last_app.
  destruct (last ws) as [y|] eqn:E.
  - intros [= <-]. apply last_Some in E as [r ->].
    unfold blank in Hws. rewrite Forall_app in Hws. destruct Hws as [_ Hy].
    now inversion Hy.
  - apply last_None in E. congruence.
Qed.

(** Every text that neither begins nor ends with whitespace is made of
    sentences and their separators, followed by a last piece. *)
Lemma pieces_exist n : forall s,
  (length s <= n)%nat -> trimmed s ->
  exists pairs final,
    s = weave pairs ++ final /\ Forall separated pairs
    /\ trimmed final /\ no_boundary None final = true.
Proof.
  induction n as [|n IH]; intros s Hlen Hs.
  { destruct Hs as [(c & r & -> & _) _]. simpl in Hlen. lia. }
  destruct (no_boundary None s) eqn:E.
  { exists [], s. repeat split; auto; apply Hs. }
  destruct (first_boundary s None E) as (a & x & rest & -> & Ha & Hx & He).
  destruct Hs as [(c & r & Hhead & Hc) (r' & c' & Hlast & Hc')].
  destruct a as [|c0 a]; [discriminate|].
  injection Hhead as -> _.
  destruct (lstrip_decomp rest) as (ws & Hrest & Hws).
  assert (Hbl : blank (x :: ws)) by now constructor.
  assert (Hl : last (c :: a) = last_or None (c :: a))
    by (unfold last_or; now destruct (last (c :: a))).
  destruct (lstrip rest) as [|y rest'] eqn:El.
  { exfalso. rewrite app_nil_r in Hrest. subst rest.
    assert (Hsp : isspace c' = true).
    { apply (blank_last (c :: a) (x :: ws) c' Hbl); [discriminate|].
      rewrite Hlast. apply last_snoc. }
    congruence. }
  assert (Hy : isspace y = false) by exact (lstrip_head _ _ _ El).
  assert (Ht : trimmed (y :: rest')).
  { split; [now exists y, rest'|].
    assert (Hly : last (y :: rest') = Some c').
    { rewrite <- (last_snoc c' r'), <- Hlast, Hrest.
      change ((c :: a) ++ x :: ws ++ y :: rest')
        with ((c :: a) ++ (x :: ws) ++ y :: rest').
      rewrite !last_app.
      destruct (last (y :: rest')) eqn:E'; [reflexivity|].
      apply last_None in E'. discriminate. }
    apply last_Some in Hly as [l' Hl']. now exists l', c'. }
  destruct (IH (y :: rest')) as (pairs & final & Hw & Hp & Hf & Hn); [|exact Ht|].
  { rewrite Hrest in Hlen. rewrite !length_app in Hlen. simpl in Hlen.
    rewrite length_app in Hlen. simpl in *. lia. }
  exists ((c :: a, x :: ws) :: pairs), final.
  split.
  { cbn [weave]. rewrite Hrest, Hw. now rewrite <- !app_assoc. }
  split; [|now split].
  constructor; [|exact Hp]. split; [|split; [exact Hbl|discriminate]].
  cbn [fst]. split; [now exists c, a|]. split; [now rewrite Hl|exact Ha].
Qed.

Lemma strip_is_trimmed s : strip s <> [] -> trimmed (strip s).
Proof.
  intros Hne. split.
  - assert (H : lstrip (strip s) = strip s)
      by (unfold strip; apply lstrip_rstrip, lstrip_idem).
    destruct (strip s) as [|c r]; [congruence|]. exists c, r.
    split; [reflexivity|]. exact (lstrip_head _ _ _ H).
  - assert (H : rstrip (strip s) = strip s) by (unfold strip; apply rstrip_idem).
    unfold rstrip in H. apply (f_equal (@rev N)) in H. rewrite rev_involutive in H.
    destruct (rev (strip s)) as [|c r] eqn:Er.
    + apply (f_equal (@rev N)) in Er. rewrite rev_involutive in Er. now destruct Hne.
    + exists (rev r), c. split; [|exact (lstrip_head _ _ _ H)].
      apply (f_equal (@rev N)) in Er. now rewrite rev_involutive in Er.
Qed.

Lemma text_pieces s :
  blank s
  \/ exists ws0 pairs final ws1,
       s = ws0 ++ weave pairs ++ final ++ ws1 /\ blank ws0 /\ blank ws1
       /\ Forall separated pairs /\ trimmed final /\ no_boundary None final = true.
Proof.
  destruct (strip_decomp s) as (ws0 & ws1 & Hs & H0 & H1).
  destruct (strip s) as [|c r] eqn:E.
  - left. rewrite Hs. simpl. now apply blank_app.
  - right.
    assert (Ht : trimmed (c :: r)).
    { rewrite <- E. apply strip_is_trimmed. now rewrite E. }
    destruct (pieces_exist (length (c :: r)) (c :: r)) as (pairs & final & Hw & Hp & Hf & Hn);
      [lia|exact Ht|].
    exists ws0, pairs, final, ws1.
    split; [rewrite Hs at 1; rewrite Hw; now rewrite <- !app_assoc|].
    now repeat (split; [assumption|]).
Qed.

(** ** The link of a title is unique *)

Lemma hex_value_range c v :
  hex_value c = Some v ->
  v < 16 /\ ((v < 10 /\ c = 0x30 + v) \/ (10 <= v /\ c = 0x41 + (v - 10))).
Proof.
  unfold hex_value.
  destruct (in_range 0x30 0x39 c) eqn:E1.
  { apply in_range_true in E1. intros [= <-]. lia. }
  destruct (in_range 0x41 0x46 c) eqn:E2; [|discriminate].
  apply in_range_true in E2. intros [= <-]. lia.
Qed.

Lemma hex_value_inj c c' v :
  hex_value c = Some v -> hex_value c' = Some v -> c = c'.
Proof.
  intros H H'. apply hex_value_range in H as [_ H].
  apply hex_value_range in H' as [_ H']. lia.
Qed.

Lemma underscored_fun c d d' : underscored c d -> underscored c d' -> d = d'.
Proof. intros [[? ->]|[? ->]] [[? ->]|[? ->]]; congruence. Qed.

Lemma pct_encoded_fun keep b out out' :
  pct_encoded keep b out -> pct_encoded keep b out' -> out = out'.
Proof.
  intros [[Hin ->]|[Hin (h & l & vh & vl & -> & Hh & Hl & Hb)]]
         [[Hin' ->]|[Hin' (h' & l' & vh' & vl' & -> & Hh' & Hl' & Hb')]];
    try reflexivity; try contradiction.
  pose proof (hex_value_range _ _ Hh) as [? _].
  pose proof (hex_value_range _ _ Hl) as [? _].
  pose proof (hex_value_range _ _ Hh') as [? _].
  pose proof (hex_value_range _ _ Hl') as [? _].
  assert (vh' = vh) by lia. assert (vl' = vl) by lia. subst vh' vl'.
  now rewrite (hex_value_inj _ _ _ Hh Hh'), (hex_value_inj _ _ _ Hl Hl').
Qed.

Lemma Forall2_fun {A B} (R : A -> B -> Prop) :
  (forall a b b', R a b -> R a b' -> b = b') ->
  forall l m m', Forall2 R l m -> Forall2 R l m' -> m = m'.
Proof.
  intros HR l m m' H. revert m'.
  induction H as [|a b l m Hab _ IH]; intros m' H'; inversion H'; subst; [reflexivity|].
  f_equal; [eapply HR; eassumption|now apply IH].
Qed.

Lemma link_for_unique t link link' : link_for t link -> link_for t link' -> link' = link.
Proof.
  intros (t1 & b1 & p1 & Ht1 & Hb1 & Hp1 & ->) (t2 & b2 & p2 & Ht2 & Hb2 & Hp2 & ->).
  assert (t2 = t1) by exact (Forall2_fun _ underscored_fun _ _ _ Ht2 Ht1). subst t2.
  assert (b2 = b1) by congruence. subst b2.
  now rewrite (Forall2_fun _ (pct_encoded_fun [0x2F]) _ _ _ Hp2 Hp1).
Qed.

(** ** The answers built from a title *)

Lemma no_extract_reply r : no_extract r -> extract_of_reply r = None.
Proof.
  intros [H|(status & data & -> & H)]; [now apply failed_extract|].
  simpl. destruct (in_range 400 599 status); [reflexivity|].
  destruct H as [H|(kv & -> & H)].
  - destruct data; try reflexivity. now destruct (H kv).
  - simpl. destruct H as [->|(v & -> & Hv)]; simpl; [reflexivity|now rewrite Hv].
Qed.

(** C8.  The title lookup gave the title [t], a non-empty text that UTF-8
    can encode, of which no summary is cached, and the reply to the summary
    request brings no summary: the request failed (no connection or a
    timeout, a 4xx or 5xx status, a body that is not JSON), or the body is
    not an object, or has no [extract], or a falsy one.  Then the answer is
    the message that names the title, says that the short summary could not
    be fetched, and ends with the link of the title; the call made that one
    summary request and wrote nothing to the cache. *)
Theorem answer_query_no_summary input st t st1 safe :
  strip input <> [] -> check_small_talk (strip input) = Ok None ->
  wiki_search_first_title (strip input) st = (Ok (JStr t), st1) ->
  t <> [] ->
  cached FSummary t st1 = None ->
  quote t [] = Ok safe ->
  no_extract (remote (count is_request (trace st1)) (SummaryGet (WIKI_SUMMARY_URL safe))) ->
  exists link,
    link_for t link
    /\ answer_query input st
       = (Ok (py "Maine ek page dhoondh liya: " ++ t ++ py " " ++ DASH
              ++ py " lekin short summary fetch nahi hui." ++ NL
              ++ py "Aap full article yahan dekh sakte hain: " ++ link),
          {| cache := cache st1;
             trace := trace st1 ++ [CacheProbe (JStr t) FSummary;
                                    HttpGet (SummaryGet (WIKI_SUMMARY_URL safe))] |}).
Proof.
  intros Hq Hc Hs Ht Hm Hsafe Hr.
  destruct (wiki_link_spec t safe Hsafe) as (link & Hlink & Hfor & _).
  exists link. split; [assumption|].
  assert (Hsum : wiki_get_summary (JStr t) st1
                 = (Ok JNull,
                    {| cache := cache st1;
                       trace := trace st1 ++ [CacheProbe (JStr t) FSummary;
                                              HttpGet (SummaryGet (WIKI_SUMMARY_URL safe))] |})).
  { rewrite wiki_get_summary_eq. cbv zeta.
    destruct t; [congruence|]. simpl is_nil. cbv iota.
    rewrite Hm, Hsafe, (no_extract_reply _ Hr). unfold log. simpl.
    now rewrite <- app_assoc. }
  assert (Htt : truthy (JStr t) = true) by (destruct t; [congruence|reflexivity]).
  rewrite (answer_query_resolved input st _ st1 _ _ Hq Hc Hs Htt Hsum).
  unfold finish. simpl truthy. cbv iota. now rewrite Hlink.
Qed.

(** C9.  The link in an answer built from a title is the link of that
    title: the base address followed, byte by byte, by the percent-encoding
    of the UTF-8 text of the title in which every space was turned into an
    underscore; a byte that is a letter, a digit or one of [_.-~/] stands
    for itself and any other byte is written [%] and its two hexadecimal
    digits.  No other text is the link of the title.  The answer ends with
    the link, and the link has no space in it.  For [Albert Einstein] it is
    [https://en.wikipedia.org/wiki/Albert_Einstein]; every space is
    replaced, and what is not unreserved is encoded. *)
Theorem answer_query_link input st title st1 summary st2 answer :
  reachable st ->
  strip input <> [] -> check_small_talk (strip input) = Ok None ->
  wiki_search_first_title (strip input) st = (Ok title, st1) ->
  truthy title = true ->
  wiki_get_summary title st1 = (Ok summary, st2) ->
  fst (answer_query input st) = Ok answer ->
  (exists t link before,
      title = JStr t
      /\ link_for t link
      /\ (forall link', link_for t link' -> link' = link)
      /\ answer = before ++ link
      /\ ~ In 0x20 link)
  /\ wiki_link (py "Albert Einstein")
     = Ok (py "https://en.wikipedia.org/wiki/Albert_Einstein")
  /\ wiki_link (py "A  B C ")
     = Ok (py "https://en.wikipedia.org/wiki/A__B_C_")
  /\ wiki_link (py "Caf" ++ [0xE9] ++ py " au lait?")
     = Ok (py "https://en.wikipedia.org/wiki/Caf%C3%A9_au_lait%3F")
  /\ wiki_link (py "AC/DC 100% " ++ [0x20AC; 0x1F600])
     = Ok (py "https://en.wikipedia.org/wiki/AC/DC_100%25_%E2%82%AC%F0%9F%98%80").
Proof.
  intros Hr Hq Hc Hs Ht Hm Ha.
  split; [|repeat split; vm_compute; reflexivity].
  destruct (search_spec _ _ _ _ Hs) as (_ & _ & Hok & _).
  destruct (summary_spec _ _ _ _ Hm) as (_ & _ & _ & Hstr & _).
  destruct (Hstr summary (Hok (reachable_ok st Hr)) eq_refl Ht) as (t & safe & -> & Hsafe).
  destruct (wiki_link_spec t safe Hsafe) as (link & Hlink & Hfor & Hns).
  rewrite (answer_query_resolved input st _ st1 _ st2 Hq Hc Hs Ht Hm) in Ha.
  simpl in Ha. unfold finish in Ha. rewrite Hlink in Ha.
  assert (Hun : forall link', link_for t link' -> link' = link)
    by (intros link' H'; exact (link_for_unique t link link' Hfor H')).
  destruct (truthy summary).
  - destruct (short_sentences_value summary 2) as [short|e]; [|discriminate].
    injection Ha as <-.
    exists t, link, (py "**" ++ t ++ py "**" ++ NL ++ short ++ NL ++ NL
                     ++ py "Agar aur padhna ho: ").
    repeat split; auto. unfold msg_answer. now rewrite <- !app_assoc.
  - injection Ha as <-.
    exists t, link, (py "Maine ek page dhoondh liya: " ++ t ++ py " " ++ DASH
                     ++ py " lekin short summary fetch nahi hui." ++ NL
                     ++ py "Aap full article yahan dekh sakte hain: ").
    repeat split; auto. unfold msg_no_summary. now rewrite <- !app_assoc.
Qed.

(** C7.  When a summary [s] was fetched, the answer is the title, the
    summary cut by [short_sentences] to two sentences, and the link.  What is
    kept of the summary: whitespace around it is dropped; the rest is cut
    into pieces at every run of whitespace that follows [.], [?] or [!], and
    the first two pieces (the only one, if there is one) are joined by one
    space.  Every summary that is not blank is made of such pieces, so this
    says what is kept of any summary; of a blank one nothing is kept.  Of
    [A. B. C.] the answer keeps [A. B.]; of [Mr. X came. He left.] it keeps
    [Mr. X came.], since the whitespace after [Mr.] cuts too. *)
Theorem answer_query_truncates input st title st1 s st2 :
  reachable st ->
  strip input <> [] -> check_small_talk (strip input) = Ok None ->
  wiki_search_first_title (strip input) st = (Ok title, st1) ->
  truthy title = true ->
  wiki_get_summary title st1 = (Ok (JStr s), st2) ->
  s <> [] ->
  (exists t link,
      title = JStr t /\ link_for t link
      /\ answer_query input st
         = (Ok (py "**" ++ t ++ py "**" ++ NL ++ short_sentences s 2 ++ NL ++ NL
                ++ py "Agar aur padhna ho: " ++ link), st2))
  /\ (forall ws0 pairs final ws1,
        s = ws0 ++ weave pairs ++ final ++ ws1 ->
        blank ws0 -> blank ws1 -> Forall separated pairs ->
        trimmed final -> no_boundary None final = true ->
        short_sentences s 2 = join [0x20] (firstn 2 (map fst pairs ++ [final])))
  /\ (blank s -> short_sentences s 2 = [])
  /\ (blank s
      \/ exists ws0 pairs final ws1,
           s = ws0 ++ weave pairs ++ final ++ ws1 /\ blank ws0 /\ blank ws1
           /\ Forall separated pairs /\ trimmed final
           /\ no_boundary None final = true)
  /\ short_sentences (py "A. B. C.") 2 = py "A. B."
  /\ short_sentences (py "  A.   B.  ") 2 = py "A. B."
  /\ short_sentences (py "A.B! C?") 2 = py "A.B! C?"
  /\ short_sentences (py "Mr. X came. He left.") 2 = py "Mr. X came.".
Proof.
  intros Hr Hq Hc Hs Ht Hm Hne.
  split; [|split; [|split; [|split; [|repeat split; vm_compute; reflexivity]]]].
  - destruct (search_spec _ _ _ _ Hs) as (_ & _ & Hok & _).
    destruct (summary_spec _ _ _ _ Hm) as (_ & _ & _ & Hstr & _).
    destruct (Hstr _ (Hok (reachable_ok st Hr)) eq_refl Ht) as (t & safe & -> & Hsafe).
    destruct (wiki_link_spec t safe Hsafe) as (link & Hlink & Hfor & _).
    exists t, link. split; [reflexivity|]. split; [assumption|].
    rewrite (answer_query_resolved input st _ st1 _ st2 Hq Hc Hs Ht Hm).
    unfold finish. rewrite Hlink. destruct s; [congruence|]. reflexivity.
  - intros ws0 pairs final ws1 -> H0 H1 Hp Hf Hn.
    now apply short_sentences_pieces.
  - apply short_sentences_blank.
  - apply text_pieces.
Qed.

(** X15.  The string [wiki_get_summary] passes to [requests.get] for the
    summary of a title is the summary endpoint followed by the title
    percent-encoded with nothing kept (an empty [safe]): each byte of its UTF-8
    text that is an ASCII letter, a digit or one of [_.-~] stands for itself
    and any other byte is written [%] and its two hexadecimal digits.  So the
    encoded part is made of these characters and [%] only, and a [/] of the
    title does not show in it.  This is about the string passed to
    [requests.get], not about what [requests] does with it. *)
Theorem wiki_get_summary_url title st url :
  In (HttpGet (SummaryGet url)) (trace (snd (wiki_get_summary title st))) ->
  In (HttpGet (SummaryGet url)) (trace st)
  \/ exists t q bytes parts,
       title = JStr t /\ quote t [] = Ok q
       /\ utf8_encode t = Some bytes
       /\ Forall2 (pct_encoded []) bytes parts
       /\ q = concat parts
       /\ url = py "https://en.wikipedia.org/api/rest_v1/page/summary/" ++ q
       /\ Forall (fun c => url_char c = true) q
       /\ ~ In 0x2F q.
Proof.
  assert (Hprobe : forall k f, In (HttpGet (SummaryGet url)) (trace st ++ [CacheProbe k f]) ->
                     In (HttpGet (SummaryGet url)) (trace st)).
  { intros k f H. apply in_app_or in H as [H|[H|[]]]; [assumption|discriminate]. }
  destruct (match title with JStr _ => true | _ => false end) eqn:Estr.
  2:{ rewrite wiki_get_summary_not_str by (intros t ->; discriminate).
      destruct (negb (truthy title)); [now left|].
      destruct title; try discriminate; simpl; eauto. }
  destruct title as [| | | | t | |]; try discriminate.
  rewrite wiki_get_summary_eq. cbv zeta.
  destruct (is_nil t); [now left|].
  destruct (cached FSummary t st); [simpl; eauto|].
  destruct (quote t []) as [q|e] eqn:Eq; [|simpl; eauto].
  assert (Hget : In (HttpGet (SummaryGet url))
                   ((trace st ++ [CacheProbe (JStr t) FSummary])
                    ++ [HttpGet (SummaryGet (WIKI_SUMMARY_URL q))]) ->
                 In (HttpGet (SummaryGet url)) (trace st)
                 \/ url = WIKI_SUMMARY_URL q).
  { intros H. apply in_app_or in H as [H|[H|[]]]; [left; eauto|].
    right. now injection H as <-. }
  intros H.
  assert (H' : In (HttpGet (SummaryGet url)) (trace st) \/ url = WIKI_SUMMARY_URL q)
    by (destruct (extract_of_reply _); apply Hget; exact H).
  destruct H' as [H' | ->]; [now left|]. right.
  pose proof (quote_chars t q Eq) as Hc.
  destruct (quote_spec _ _ _ Eq) as (bytes & parts & Hb & Hp & Hq).
  exists t, q, bytes, parts. repeat split; auto.
  intros Hin. rewrite Forall_forall in Hc.
  apply list_elem_of_In, Hc in Hin. discriminate.
Qed.

(** ** What [main] writes can be written *)

Lemma can_print_app ok a b :
  can_print ok (a ++ b) = can_print ok a && can_print ok b.
Proof. apply forallb_app. Qed.

Lemma can_print_in ok s :
  can_print ok s = true <-> forall c, In c s -> ok c = true.
Proof. apply forallb_forall. Qed.

Lemma can_print_own ok s :
  (forall c, own_char c = true -> ok c = true) ->
  forallb own_char s = true -> can_print ok s = true.
Proof.
  intros Hok H. apply can_print_in. intros c Hc. apply Hok.
  rewrite forallb_forall in H. now apply H.
Qed.

Lemma strip_in s c : In c (strip s) -> In c s.
Proof.
  intros H. destruct (strip_decomp s) as (ws1 & ws2 & Hs & _). rewrite Hs.
  apply in_or_app. right. apply in_or_app. now left.
Qed.

Lemma re_split_in s : forall skip prev p c,
  In p (re_split skip prev s) -> In c p -> In c s.
Proof.
  induction s as [|c0 s IH]; intros skip prev p c; simpl.
  - intros [<-|[]] [].
  - destruct (isspace c0 && skip); [intros Hp Hc; right; eauto|].
    destruct (isspace c0 && ends_sentence prev).
    + intros [<-|Hp] Hc; [destruct Hc|right; eauto].
    + specialize (IH false (Some c0)).
      destruct (re_split false (Some c0) s) as [|p0 ps]; simpl.
      * intros [<-|[]] [<-|[]]. now left.
      * intros [<-|Hp] Hc.
        -- destruct Hc as [<-|Hc]; [now left|right].
           apply (IH p0 c); [now left|assumption].
        -- right. apply (IH p c); [now right|assumption].
Qed.

Lemma join_in sep parts c :
  In c (join sep parts) -> In c sep \/ exists p, In p parts /\ In c p.
Proof.
  induction parts as [|p ps IH]; [intros []|].
  destruct ps as [|p' ps].
  - intros H. right. exists p. split; [now left|assumption].
  - change (join sep (p :: p' :: ps)) with (p ++ sep ++ join sep (p' :: ps)).
    intros H. apply in_app_or in H as [H|H].
    + right. exists p. split; [now left|assumption].
    + apply in_app_or in H as [H|H]; [now left|].
      destruct (IH H) as [Hs|(q & Hq & Hc)]; [now left|].
      right. exists q. split; [now right|assumption].
Qed.

Lemma firstn_in {A} n (l : list A) x : In x (firstn n l) -> In x l.
Proof.
  revert l. induction n as [|n IH]; intros [|y l]; simpl; try tauto.
  intros [->|H]; [now left|right; auto].
Qed.

Lemma short_sentences_in s n c :
  In c (short_sentences s n) -> In c s \/ c = 0x20.
Proof.
  unfold short_sentences.
  destruct (re_split false None (strip s)) as [|p ps] eqn:E; [now left|].
  intros H. apply strip_in, join_in in H as [[<-|[]]|(q & Hq & Hc)]; [now right|].
  left. apply strip_in. apply firstn_in in Hq. rewrite <- E in Hq.
  exact (re_split_in _ _ _ _ _ Hq Hc).
Qed.

Lemma can_print_short ok s n :
  ok 0x20 = true -> can_print ok s = true -> can_print ok (short_sentences s n) = true.
Proof.
  intros Hsp Hs. apply can_print_in. intros c Hc.
  apply short_sentences_in in Hc as [Hc| ->]; [|assumption].
  rewrite can_print_in in Hs. now apply Hs.
Qed.

Lemma always_safe_ascii b : always_safe b = true -> b < 0x80.
Proof.
  unfold always_safe, is_ascii_alnum. rewrite !orb_true_iff, !N.eqb_eq.
  rewrite !in_range_true. lia.
Qed.

Lemma quote_byte_ascii b : b < 256 -> Forall (fun c => c < 0x80) (quote_byte [0x2F] b).
Proof.
  intros Hb. unfold quote_byte.
  destruct (always_safe b || existsb (N.eqb b) [0x2F]) eqn:E.
  - repeat constructor. apply orb_true_iff in E as [E|E];
      [now apply always_safe_ascii|].
    simpl in E. rewrite orb_false_r in E. apply N.eqb_eq in E. lia.
  - constructor; [lia|]. constructor.
    { apply always_safe_ascii, hex_digit_safe, N.Div0.div_lt_upper_bound. lia. }
    constructor; [|constructor].
    apply always_safe_ascii, hex_digit_safe, N.mod_lt. lia.
Qed.

Lemma wiki_link_own t link : wiki_link t = Ok link -> forallb own_char link = true.
Proof.
  unfold wiki_link, quote.
  destruct (utf8_encode (replace 0x20 0x5F t)) as [bs|] eqn:E; [|discriminate].
  intros H.
  assert (Hl : link = py "https://en.wikipedia.org/wiki/" ++ flat_map (quote_byte [0x2F]) bs)
    by congruence.
  rewrite Hl. clear H Hl. rewrite forallb_app. apply andb_true_iff.
  split; [vm_compute; reflexivity|].
  pose proof (utf8_encode_bytes _ _ E) as Hb. clear E.
  apply forallb_forall. intros c Hc. apply in_flat_map in Hc as (b & Hin & Hc).
  rewrite Forall_forall in Hb. apply list_elem_of_In, Hb in Hin.
  pose proof (quote_byte_ascii b Hin) as Hq. rewrite Forall_forall in Hq.
  apply list_elem_of_In, Hq in Hc. unfold own_char.
  now rewrite (proj2 (N.ltb_lt c 0x80) Hc).
Qed.

Lemma small_talk_own text reply :
  check_small_talk text = Ok (Some reply) -> forallb own_char reply = true.
Proof.
  intros H. destruct (check_small_talk_reply _ _ H) as (info & rest & Hin & Hr).
  assert (Hall : forallb (fun i => forallb (forallb own_char) (replies i)) SMALL_TALK = true)
    by (vm_compute; reflexivity).
  rewrite forallb_forall in Hall. specialize (Hall info Hin).
  rewrite Hr in Hall. simpl in Hall. now apply andb_true_iff in Hall as [Hall _].
Qed.

Section Console.

Variable stdout_ok : N -> bool.
Hypothesis own_ok : forall c, own_char c = true -> stdout_ok c = true.
Hypothesis replies_ok : writable_replies stdout_ok.

Lemma search_writable query st r st' :
  cache_writable stdout_ok st ->
  wiki_search_first_title query st = (r, st') ->
  cache_writable stdout_ok st'
  /\ forall t, r = Ok (JStr t) -> can_print stdout_ok t = true.
Proof.
  intros Hc. rewrite wiki_search_first_title_eq. cbv zeta.
  destruct (is_nil (strip query)).
  { intros [= <- <-]. split; [assumption|discriminate]. }
  destruct (cached FTitle (strip query) st) as [v|] eqn:Ec.
  { intros [= <- <-]. split; [exact Hc|]. intros t [= ->]. exact (Hc _ _ _ Ec). }
  destruct (title_of_reply _) as [title|] eqn:Er.
  - intros [= <- <-]. split.
    + intros f k t. rewrite cached_store. case_decide.
      * intros [= ->]. exact (proj1 replies_ok _ _ _ Er).
      * apply Hc.
    + intros t [= ->]. exact (proj1 replies_ok _ _ _ Er).
  - intros [= <- <-]. split; [exact Hc|discriminate].
Qed.

Lemma summary_writable title st r st' :
  cache_writable stdout_ok st ->
  wiki_get_summary title st = (r, st') ->
  cache_writable stdout_ok st'
  /\ forall s, r = Ok (JStr s) -> can_print stdout_ok s = true.
Proof.
  intros Hc.
  destruct (match title with JStr _ => true | _ => false end) eqn:Estr.
  2:{ rewrite wiki_get_summary_not_str by (intros x ->; discriminate).
      destruct (negb (truthy title)); [intros [= <- <-]; split; [assumption|discriminate]|].
      destruct title; try discriminate; intros [= <- <-];
        (split; [assumption|discriminate]). }
  destruct title as [| | | | t | |]; try discriminate.
  rewrite wiki_get_summary_eq. cbv zeta.
  destruct (is_nil t); [intros [= <- <-]; split; [assumption|discriminate]|].
  destruct (cached FSummary t st) as [v|] eqn:Ec.
  { intros [= <- <-]. split; [exact Hc|]. intros s [= ->]. exact (Hc _ _ _ Ec). }
  destruct (quote t []); [|intros [= <- <-]; split; [assumption|discriminate]].
  destruct (extract_of_reply _) as [summary|] eqn:Er.
  - intros [= <- <-]. split.
    + intros f k s. rewrite cached_store. case_decide.
      * intros [= ->]. exact (proj2 replies_ok _ _ _ Er).
      * apply Hc.
    + intros s [= ->]. exact (proj2 replies_ok _ _ _ Er).
  - intros [= <- <-]. split; [exact Hc|discriminate].
Qed.

Lemma answer_writable input st :
  cache_writable stdout_ok st ->
  cache_writable stdout_ok (snd (answer_query input st))
  /\ forall answer, fst (answer_query input st) = Ok answer ->
       can_print stdout_ok answer = true.
Proof.
  intros Hc.
  destruct (answer_query_cases input st) as [[_ ->]|[(c & r & Hs & ->)|[Hq Hs]]].
  - split; [exact Hc|]. intros a [= <-]. now apply can_print_own.
  - split; [exact Hc|]. intros a [= <-].
    apply can_print_own; [exact own_ok|]. exact (small_talk_own _ _ Hs).
  - destruct (wiki_search_first_title (strip input) st) as [r1 st1] eqn:Es.
    destruct (search_writable _ _ _ _ Hc Es) as (Hc1 & Ht1).
    destruct (search_spec _ _ _ _ Es) as ((title & -> & _) & _).
    destruct (truthy title) eqn:Ht.
    2:{ rewrite (answer_query_unresolved input st title st1 Hq Hs Es Ht).
        split; [exact Hc1|]. intros a [= <-]. now apply can_print_own. }
    destruct (wiki_get_summary title st1) as [r2 st2] eqn:Em.
    destruct (summary_writable _ _ _ _ Hc1 Em) as (Hc2 & Hs2).
    rewrite (answer_query_resolved input st title st1 _ st2 Hq Hs Es Ht Em).
    split; [exact Hc2|]. simpl fst.
    destruct r2 as [summary|e]; [|discriminate].
    unfold finish. destruct title as [| | | | t | |];
      try (destruct (truthy summary); [destruct (short_sentences_value summary 2)|];
           discriminate).
    specialize (Ht1 t eq_refl).
    assert (Hsp : stdout_ok 0x20 = true) by (apply own_ok; reflexivity).
    destruct (truthy summary).
    + destruct summary as [| | | | s | |]; simpl short_sentences_value; try discriminate.
      specialize (Hs2 s eq_refl).
      destruct (wiki_link t) as [link|e] eqn:El; [|discriminate].
      intros a [= <-]. unfold msg_answer. rewrite !can_print_app.
      rewrite Ht1, (can_print_short _ s 2 Hsp Hs2).
      rewrite (can_print_own _ link own_ok (wiki_link_own _ _ El)).
      rewrite !(can_print_own _ _ own_ok) by reflexivity. reflexivity.
    + destruct (wiki_link t) as [link|e] eqn:El; [|discriminate].
      intros a [= <-]. unfold msg_no_summary. rewrite !can_print_app.
      rewrite Ht1, (can_print_own _ link own_ok (wiki_link_own _ _ El)).
      rewrite !(can_print_own _ _ own_ok) by reflexivity. reflexivity.
Qed.

Lemma run_ops_writable ops : forall st,
  cache_writable stdout_ok st -> cache_writable stdout_ok (run_ops ops st).
Proof.
  induction ops as [|o ops IH]; intros st Hc; [exact Hc|].
  simpl. apply IH. destruct o as [u|q|t]; simpl.
  - now apply answer_writable.
  - destruct (wiki_search_first_title q st) as [r st'] eqn:E.
    now destruct (search_writable _ _ _ _ Hc E).
  - destruct (wiki_get_summary t st) as [r st'] eqn:E.
    now destruct (summary_writable _ _ _ _ Hc E).
Qed.

Lemma main_loop_values elapsed_text str_lower stdin : forall n st,
  (forall k, can_print stdout_ok (elapsed_text k) = true) ->
  forallb decodes stdin = true ->
  well_typed -> values_ok st -> cache_writable stdout_ok st ->
  exists out st' b,
    main_loop stdout_ok elapsed_text str_lower stdin n st = (out, Ok tt, st')
    /\ last out = Some (Goodbye b).
Proof.
  intros n st Hel Hin Hwt. revert n st.
  assert (Hp : shown stdout_ok elapsed_text Prompt = true)
    by (apply can_print_own; [exact own_ok|reflexivity]).
  assert (Hg : forall b, shown stdout_ok elapsed_text (Goodbye b) = true)
    by (intros [|]; (apply can_print_own; [exact own_ok|reflexivity])).
  induction stdin as [|key rest IH]; intros n st Hv Hc; cbn [main_loop];
    rewrite Hp; cbn [negb].
  - rewrite Hg. exists [Prompt; Goodbye true], st, true. split; reflexivity.
  - destruct key as [text| |];
      [|discriminate
       |rewrite Hg; exists [Prompt; Goodbye true], st, true; split; reflexivity].
    simpl in Hin. specialize (IH Hin).
    cbv zeta. destruct (is_nil (strip text)).
    + destruct (IH n st Hv Hc) as (out & st' & b & -> & Hl).
      exists (Prompt :: out), st', b. split; [reflexivity|].
      rewrite last_cons, Hl. reflexivity.
    + destruct (is_exit str_lower (strip text));
        [rewrite Hg; exists [Prompt; Goodbye false], st, false; split; reflexivity|].
      destruct (answer_query_values (strip text) st Hwt Hv) as (Hv' & a & Ha).
      destruct (answer_writable (strip text) st Hc) as (Hc' & Hw).
      destruct (answer_query (strip text) st) as [r st'] eqn:Ea.
      simpl in Ha, Hv', Hc', Hw. subst r. specialize (Hw a eq_refl).
      assert (Hr : shown stdout_ok elapsed_text (Reply a n) = true).
      { unfold shown, render. rewrite !can_print_app, Hw, Hel.
        rewrite !(can_print_own _ _ own_ok) by reflexivity. reflexivity. }
      rewrite Hr.
      destruct (IH (S n) st' Hv' Hc') as (out & st'' & b & -> & Hl).
      exists (Prompt :: Reply a n :: out), st'', b. split; [reflexivity|].
      rewrite !last_cons, Hl. reflexivity.
Qed.

End Console.

(** X4.  The console can write the texts the program has of its own and
    the text of the clock, what is typed is text, and the services answer
    with text where text is expected, which the console can write.  Then a
    session of [main] started in a reachable state, on any lines typed and
    with Ctrl-C at the prompt, never ends with an exception, whatever fails
    on the network: the loop ends normally and the last thing written is the
    goodbye. *)
Theorem main_loop_returns stdout_ok elapsed_text str_lower stdin n st :
  (forall c, own_char c = true -> stdout_ok c = true) ->
  (forall k, can_print stdout_ok (elapsed_text k) = true) ->
  forallb decodes stdin = true ->
  well_typed -> writable_replies stdout_ok ->
  reachable st ->
  exists out st' b,
    main_loop stdout_ok elapsed_text str_lower stdin n st = (out, Ok tt, st')
    /\ last out = Some (Goodbye b).
Proof.
  intros Hown Hel Hin Hwt Hrep [ops ->]. apply main_loop_values; try assumption.
  - apply run_ops_values; [assumption|]. split; intros k v H; discriminate.
  - apply run_ops_writable; try assumption. intros f k t H. discriminate.
Qed.

End Chatbot.

(** * The program at work

    Runs of the program against the concrete services above: one for each
    statement that has premises, and the runs on which two of the expected
    properties fail. *)

Lemma answer_query_small_talk_witness :
  exists reply rest,
    replies thanks = reply :: rest
    /\ answer_query ascii_only remote_down (py "  Thanks, bye!") initial
       = (Ok reply, initial).
Proof.
  apply (answer_query_small_talk ascii_only (fun _ _ => eq_refl) remote_down
           (py "  Thanks, bye!") [greeting; howare; imfine] thanks [farewell; help]
           initial).
  - reflexivity.
  - intros r [<-|[<-|[<-|[]]]]; vm_compute; reflexivity.
  - vm_compute. reflexivity.
Defined.

Lemma answer_query_blank_witness :
  answer_query ascii_only remote_down [0x20; 0x09; 0xA0; 0x0A] initial
  = (Ok MSG_EMPTY, initial).
Proof.
  apply (answer_query_blank ascii_only remote_down [0x20; 0x09; 0xA0; 0x0A] initial).
  repeat constructor.
Defined.

Lemma answer_query_word_anywhere_witness :
  exists pre first post reply rest,
    SMALL_TALK = pre ++ first :: post
    /\ (forall r, In r pre ->
          re_search ascii_only (pattern r) (py "who is Hello kitty") = false)
    /\ re_search ascii_only (pattern first) (py "who is Hello kitty") = true
    /\ (first = greeting \/ In greeting post)
    /\ replies first = reply :: rest
    /\ answer_query ascii_only remote_down (py "who is Hello kitty") initial
       = (Ok reply, initial).
Proof.
  apply (answer_query_word_anywhere ascii_only (fun _ _ => eq_refl) remote_down
           (py "who is Hello kitty") greeting (py "hello") initial).
  - now left.
  - vm_compute. auto.
  - exists (py "who is "), (py "Hello"), (py " kitty").
    split; [reflexivity|]. split; [repeat constructor|]. split; reflexivity.
Defined.

(** C10, as stated, fails on [thanks bye]: [bye] stands there as a word of
    its own and is a token of the farewell rule, but the answer is not a
    reply of that rule (it is the first reply of the thanks rule, which comes
    first in the table). *)
Lemma answer_query_word_anywhere_other_rule :
  In farewell SMALL_TALK
  /\ In (py "bye") (tokens (pattern farewell))
  /\ standalone_word ascii_only (py "bye") (py "thanks bye")
  /\ ~ (exists reply rest,
          replies farewell = reply :: rest
          /\ answer_query ascii_only remote_down (py "thanks bye") initial
             = (Ok reply, initial)).
Proof.
  split; [vm_compute; auto 10|]. split; [vm_compute; auto|]. split.
  - exists (py "thanks "), (py "bye"), [].
    split; [reflexivity|]. split; [repeat constructor|]. split; reflexivity.
  - intros (reply & rest & Hr & Ha).
    injection Hr as <- _. apply (f_equal fst) in Ha.
    vm_compute in Ha. discriminate.
Qed.

Lemma cache_memoization_witness :
  let st := run_ops ascii_only remote_wiki [Answer (py "einstein")] initial in
  let st' := run_ops ascii_only remote_wiki [Answer (py "relativity")] st in
  cached FTitle (py "einstein") st' = Some (JStr (py "Albert Einstein"))
  /\ forall query, strip query = py "einstein" ->
       wiki_search_first_title remote_wiki query st'
       = (Ok (JStr (py "Albert Einstein")),
          log (CacheProbe (JStr (py "einstein")) FTitle) st').
Proof.
  intros st.
  apply (cache_memoization ascii_only remote_wiki st FTitle (py "einstein")
           (JStr (py "Albert Einstein")) [Answer (py "relativity")]).
  - exists [Answer (py "einstein")]. reflexivity.
  - vm_compute. reflexivity.
Defined.

Lemma answer_query_no_title_witness :
  let q := py "photosynthesis" in
  let st1 := snd (wiki_search_first_title remote_down (strip q) initial) in
  answer_query ascii_only remote_down q initial = (Ok MSG_NO_MATCH, st1)
  /\ exists evs, trace st1 = trace initial ++ evs
       /\ Forall (search_event (strip q)) evs
       /\ count is_summary evs = 0%nat.
Proof.
  intros q st1.
  apply (answer_query_no_title ascii_only remote_down q initial JNull st1).
  - vm_compute. discriminate.
  - vm_compute. reflexivity.
  - vm_compute. reflexivity.
  - reflexivity.
Defined.

Lemma answer_query_twice_witness :
  let q := py "einstein" in
  let title := JStr (py "Albert Einstein") in
  let st1 := snd (wiki_search_first_title remote_wiki (strip q) initial) in
  let st2 := snd (wiki_get_summary remote_wiki title st1) in
  exists r st3,
    answer_query ascii_only remote_wiki q initial = (r, st2)
    /\ answer_query ascii_only remote_wiki q st2 = (r, st3)
    /\ cache st3 = cache st2
    /\ count is_request (trace st3) = count is_request (trace st2)
    /\ (count is_search (trace st3) <= count is_search (trace initial) + 1)%nat
    /\ (count is_summary (trace st3) <= count is_summary (trace initial) + 1)%nat.
Proof.
  intros q title st1 st2.
  apply (answer_query_twice ascii_only remote_wiki q initial title st1
           (JStr (py "A. B. C.")) st2).
  - vm_compute. discriminate.
  - vm_compute. reflexivity.
  - vm_compute. reflexivity.
  - reflexivity.
  - vm_compute. reflexivity.
  - reflexivity.
Defined.

(** C3, as stated, fails when the first request is lost: the first call
    issues a search request that fails, nothing is cached, and the second
    call issues another and returns a different answer. *)
Lemma answer_query_twice_retries :
  let q := py "photosynthesis" in
  let r1 := answer_query ascii_only remote_flaky q initial in
  let r2 := answer_query ascii_only remote_flaky q (snd r1) in
  check_small_talk ascii_only (strip q) = Ok None
  /\ ~ (count is_search (trace (snd r2)) <= 1)%nat
  /\ fst r2 <> fst r1.
Proof.
  intros q r1 r2. split; [vm_compute; reflexivity|]. split.
  - assert (H : count is_search (trace (snd r2)) = 2%nat)
      by (vm_compute; reflexivity).
    rewrite H. lia.
  - vm_compute. discriminate.
Qed.

Lemma answer_query_no_summary_witness :
  let q := py "einstein" in
  let t := py "Albert Einstein" in
  let st1 := snd (wiki_search_first_title remote_gone (strip q) initial) in
  exists link,
    link_for t link
    /\ answer_query ascii_only remote_gone q initial
       = (Ok (py "Maine ek page dhoondh liya: " ++ t ++ py " " ++ DASH
              ++ py " lekin short summary fetch nahi hui." ++ NL
              ++ py "Aap full article yahan dekh sakte hain: " ++ link),
          {| cache := cache st1;
             trace := trace st1
                      ++ [CacheProbe (JStr t) FSummary;
                          HttpGet (SummaryGet (WIKI_SUMMARY_URL (py "Albert%20Einstein")))] |}).
Proof.
  intros q t st1.
  apply (answer_query_no_summary ascii_only remote_gone q initial t st1
           (py "Albert%20Einstein")).
  - vm_compute. discriminate.
  - vm_compute. reflexivity.
  - vm_compute. reflexivity.
  - discriminate.
  - vm_compute. reflexivity.
  - vm_compute. reflexivity.
  - left. right. exists 404, (Some (JObj [(py "extract", JStr (py "A. B. C."))])).
    split; [reflexivity|left; reflexivity].
Defined.

Lemma answer_query_link_witness :
  let q := py "einstein" in
  let title := JStr (py "Albert Einstein") in
  let answer := match fst (answer_query ascii_only remote_wiki q initial) with
                | Ok a => a
                | Raise _ => []
                end in
  (exists t link before,
      title = JStr t
      /\ link_for t link
      /\ (forall link', link_for t link' -> link' = link)
      /\ answer = before ++ link
      /\ ~ In 0x20 link)
  /\ wiki_link (py "Albert Einstein")
     = Ok (py "https://en.wikipedia.org/wiki/Albert_Einstein")
  /\ wiki_link (py "A  B C ")
     = Ok (py "https://en.wikipedia.org/wiki/A__B_C_")
  /\ wiki_link (py "Caf" ++ [0xE9] ++ py " au lait?")
     = Ok (py "https://en.wikipedia.org/wiki/Caf%C3%A9_au_lait%3F")
  /\ wiki_link (py "AC/DC 100% " ++ [0x20AC; 0x1F600])
     = Ok (py "https://en.wikipedia.org/wiki/AC/DC_100%25_%E2%82%AC%F0%9F%98%80").
Proof.
  intros q title answer.
  apply (answer_query_link ascii_only remote_wiki q initial title
           (snd (wiki_search_first_title remote_wiki (strip q) initial))
           (JStr (py "A. B. C."))
           (snd (wiki_get_summary remote_wiki title
                   (snd (wiki_search_first_title remote_wiki (strip q) initial))))
           answer).
  - exists []. reflexivity.
  - vm_compute. discriminate.
  - vm_compute. reflexivity.
  - vm_compute. reflexivity.
  - reflexivity.
  - vm_compute. reflexivity.
  - vm_compute. reflexivity.
Defined.

Lemma answer_query_truncates_witness :
  let q := py "einstein" in
  let title := JStr (py "Albert Einstein") in
  let s := py "A. B. C." in
  let st1 := snd (wiki_search_first_title remote_wiki (strip q) initial) in
  let st2 := snd (wiki_get_summary remote_wiki title st1) in
  (exists t link,
      title = JStr t /\ link_for t link
      /\ answer_query ascii_only remote_wiki q initial
         = (Ok (py "**" ++ t ++ py "**" ++ NL ++ short_sentences s 2 ++ NL ++ NL
                ++ py "Agar aur padhna ho: " ++ link), st2))
  /\ (forall ws0 pairs final ws1,
        s = ws0 ++ weave pairs ++ final ++ ws1 ->
        blank ws0 -> blank ws1 -> Forall separated pairs ->
        trimmed final -> no_boundary None final = true ->
        short_sentences s 2 = join [0x20] (firstn 2 (map fst pairs ++ [final])))
  /\ (blank s -> short_sentences s 2 = [])
  /\ (blank s
      \/ exists ws0 pairs final ws1,
           s = ws0 ++ weave pairs ++ final ++ ws1 /\ blank ws0 /\ blank ws1
           /\ Forall separated pairs /\ trimmed final
           /\ no_boundary None final = true)
  /\ short_sentences (py "A. B. C.") 2 = py "A. B."
  /\ short_sentences (py "  A.   B.  ") 2 = py "A. B."
  /\ short_sentences (py "A.B! C?") 2 = py "A.B! C?"
  /\ short_sentences (py "Mr. X came. He left.") 2 = py "Mr. X came.".
Proof.
  intros q title s st1 st2.
  apply (answer_query_truncates ascii_only remote_wiki q initial title st1 s st2).
  - exists []. reflexivity.
  - vm_compute. discriminate.
  - vm_compute. reflexivity.
  - vm_compute. reflexivity.
  - reflexivity.
  - vm_compute. reflexivity.
  - discriminate.
Defined.

(** C1 fails on the search body [["x", [5]]]: the number is taken for the
    title, cached and returned by [wiki_search_first_title]; it is truthy, so
    [answer_query] goes on to [wiki_get_summary], whose [quote(title, safe="")]
    stands before the [try] and raises a [TypeError] that nothing catches. *)
Theorem answer_query_raises_on_number_title :
  fst (wiki_search_first_title remote_number_title (py "x") initial) = Ok (JInt 5)
  /\ fst (answer_query ascii_only remote_number_title (py "x") initial)
     = Raise TypeError.
Proof. split; vm_compute; reflexivity. Qed.

(** Without a network the services are trivially well typed, and the call
    returns. *)
Lemma answer_query_returns_offline :
  exists answer,
    fst (answer_query ascii_only remote_down (py "photosynthesis") initial) = Ok answer.
Proof.
  apply (answer_query_returns ascii_only remote_down (py "photosynthesis") initial).
  - split; intros n req v H; discriminate.
  - exists []. reflexivity.
Defined.

(** ** Sessions and single calls *)

Lemma main_session_witness :
  let stdin := [Line (py " einstein "); Line (py "   "); Line (py "bye")] in
  let st' := snd (main_loop ascii_only remote_wiki utf8_console no_time lower_ascii stdin 0 initial) in
  (exists ops,
      st' = run_ops ascii_only remote_wiki ops initial
      /\ Forall (fun o => exists u, o = Answer u /\ u <> [] /\ strip u = u) ops)
  /\ reachable ascii_only remote_wiki st' /\ cache_le initial st'.
Proof.
  intros stdin.
  apply (main_session ascii_only remote_wiki utf8_console no_time lower_ascii stdin 0 initial).
  exists []. reflexivity.
Defined.

Lemma main_never_prompts_witness : py "Hi!" <> MSG_EMPTY.
Proof.
  apply (main_never_prompts ascii_only remote_down utf8_console no_time lower_ascii
           [Line (py "   "); Line (py "hello")] 0 initial (py "Hi!") 0).
  vm_compute. auto.
Defined.

Lemma main_loop_stops_witness :
  main_loop ascii_only remote_wiki utf8_console no_time lower_ascii
    ([Line (py "hello")] ++ Line (py " Bye ") :: [Line (py "einstein")]) 0 initial
  = main_loop ascii_only remote_wiki utf8_console no_time lower_ascii
      ([Line (py "hello")] ++ [Line (py " Bye ")]) 0 initial.
Proof.
  apply (main_loop_stops ascii_only remote_wiki utf8_console no_time lower_ascii
           [Line (py "hello")] (Line (py " Bye ")) [Line (py "einstein")] 0 initial).
  right. exists (py " Bye "). split; [reflexivity|].
  split; [vm_compute; discriminate|vm_compute; reflexivity].
Defined.

Lemma utf8_console_own c : own_char c = true -> utf8_console c = true.
Proof.
  unfold own_char, utf8_console. intros H. apply orb_true_iff in H as [H|H].
  - apply N.ltb_lt in H. apply andb_true_iff. split; [apply N.ltb_lt; lia|].
    apply negb_true_iff, not_true_is_false. rewrite in_range_true. lia.
  - apply existsb_exists in H as (x & Hx & Hc). apply N.eqb_eq in Hc. subst x.
    repeat (destruct Hx as [<-|Hx]; [reflexivity|]). destruct Hx.
Qed.

Lemma remote_wiki_typed : well_typed remote_wiki.
Proof.
  split; intros n [q|url] v H; simpl in H; try discriminate; injection H as <-.
  - right. exists (py "Albert Einstein"), (py "Albert%20Einstein"). now split.
  - now exists (py "A. B. C.").
Qed.

Lemma remote_wiki_writable : writable_replies remote_wiki utf8_console.
Proof.
  split; intros n [q|url] t H; simpl in H; try discriminate; now injection H as <-.
Qed.

Lemma main_loop_returns_witness :
  exists out st' b,
    main_loop ascii_only remote_wiki utf8_console no_time lower_ascii
      [Line (py "einstein"); Line (py "thanks")] 0 initial = (out, Ok tt, st')
    /\ last out = Some (Goodbye b).
Proof.
  apply (main_loop_returns ascii_only remote_wiki utf8_console no_time lower_ascii
           [Line (py "einstein"); Line (py "thanks")] 0 initial).
  - exact utf8_console_own.
  - intros k. reflexivity.
  - reflexivity.
  - exact remote_wiki_typed.
  - exact remote_wiki_writable.
  - exists []. reflexivity.
Defined.

Lemma answer_query_padding_witness :
  answer_query ascii_only remote_wiki ([0x20; 0x09] ++ py "einstein" ++ [0x0A]) initial
  = answer_query ascii_only remote_wiki (py "einstein") initial.
Proof.
  apply (answer_query_padding ascii_only remote_wiki [0x20; 0x09] (py "einstein")
           [0x0A] initial); repeat constructor.
Defined.

Lemma small_talk_ignores_case_witness :
  check_small_talk ascii_only (strip (py "How Are YOU")) 
  = check_small_talk ascii_only (strip (py "how are you"))
  /\ forall c r,
       check_small_talk ascii_only (strip (py "How Are YOU")) = Ok (Some (c :: r)) ->
       answer_query ascii_only remote_down (py "How Are YOU") initial
       = (Ok (c :: r), initial)
       /\ answer_query ascii_only remote_down (py "how are you") initial
          = (Ok (c :: r), initial).
Proof.
  apply (small_talk_ignores_case ascii_only remote_down (py "How Are YOU")
           (py "how are you") initial).
  repeat constructor.
Defined.

Lemma answer_query_search_failed_witness :
  let q := py "photosynthesis" in
  answer_query ascii_only remote_down q initial
  = (Ok MSG_NO_MATCH,
     {| cache := cache initial;
        trace := trace initial ++ [CacheProbe (JStr (strip q)) FTitle;
                                   HttpGet (SearchGet (strip q))] |}).
Proof.
  intros q. apply (answer_query_search_failed ascii_only remote_down q initial).
  - vm_compute. discriminate.
  - vm_compute. reflexivity.
  - reflexivity.
  - now left.
Defined.

Lemma wiki_get_summary_failed_witness :
  let t := py "Albert Einstein" in
  let safe := py "Albert%20Einstein" in
  wiki_get_summary remote_no_extract (JStr t) initial
  = (Ok JNull,
     {| cache := cache initial;
        trace := trace initial ++ [CacheProbe (JStr t) FSummary;
                                   HttpGet (SummaryGet (WIKI_SUMMARY_URL safe))] |}).
Proof.
  intros t safe. apply (wiki_get_summary_failed remote_no_extract t safe initial).
  - discriminate.
  - reflexivity.
  - vm_compute. reflexivity.
  - right. exists 404, (Some (JObj [(py "type", JStr (py "not_found"))])).
    split; [reflexivity|]. now left.
Defined.

Lemma answer_query_not_empty_witness : py "Hi!" <> [].
Proof.
  apply (answer_query_not_empty ascii_only remote_down (py "hello") initial (py "Hi!")).
  vm_compute. reflexivity.
Defined.

Lemma cache_invariant_witness :
  let st := run_ops ascii_only remote_wiki [Answer (py "einstein")] initial in
  (forall k v, cached FTitle k st = Some v -> k <> [] /\ strip k = k)
  /\ (forall k v, cached FSummary k st = Some v ->
        k <> [] /\ truthy v = true /\ exists safe, quote k [] = Ok safe).
Proof.
  intros st. apply (cache_invariant ascii_only remote_wiki st).
  exists [Answer (py "einstein")]. reflexivity.
Defined.

Lemma wiki_get_summary_url_witness :
  let title := JStr (py "AC/DC") in
  let url := WIKI_SUMMARY_URL (py "AC%2FDC") in
  In (HttpGet (SummaryGet url)) (trace initial)
  \/ exists t q bytes parts,
       title = JStr t /\ quote t [] = Ok q
       /\ utf8_encode t = Some bytes
       /\ Forall2 (pct_encoded []) bytes parts
       /\ q = concat parts
       /\ url = py "https://en.wikipedia.org/api/rest_v1/page/summary/" ++ q
       /\ Forall (fun c => url_char c = true) q
       /\ ~ In 0x2F q.
Proof.
  intros title url. apply (wiki_get_summary_url remote_wiki title initial url).
  vm_compute. auto.
Defined.

Lemma short_sentences_whole_witness :
  short_sentences (py "  Just one sentence, e.g.this one.  ") 2
  = strip (py "  Just one sentence, e.g.this one.  ").
Proof.
  apply (short_sentences_whole (py "  Just one sentence, e.g.this one.  ") 1).
  vm_compute. reflexivity.
Defined.

Lemma help_matches_inside_words_witness :
  let input := [] ++ py "Help" ++ py "ful hints" in
  re_search ascii_only (pattern help) input = true
  /\ ((forall r, In r [greeting; howare; imfine; thanks; farewell] ->
         re_search ascii_only (pattern r) input = false) ->
      exists reply rest,
        replies help = reply :: rest
        /\ answer_query ascii_only remote_down input initial = (Ok reply, initial)).
Proof.
  apply (help_matches_inside_words ascii_only (fun _ _ => eq_refl) remote_down
           [] (py "Help") (py "ful hints") initial).
  left. split; [repeat constructor|reflexivity].
Defined.

Lemma answer_query_cached_bad_title_witness :
  let st := snd (answer_query ascii_only remote_number_title (py "x") initial) in
  exists st',
    answer_query ascii_only remote_wiki (py " x ") st = (Raise TypeError, st')
    /\ cache st' = cache st
    /\ count is_request (trace st') = count is_request (trace st).
Proof.
  intros st.
  apply (answer_query_cached_bad_title ascii_only remote_wiki (py " x ") st (JInt 5)).
  - vm_compute. discriminate.
  - vm_compute. reflexivity.
  - vm_compute. reflexivity.
  - reflexivity.
  - discriminate.
Defined.
